(** * phosphor-power: the regulators hierarchy, its configuration cascade,
      the chassis constructor and the power-supply manager.

    Sources embedded here:
    - [phosphor-regulators/src/chassis.hpp]  (class [Chassis])
    - [phosphor-regulators/src/device.cpp]   ([Device::addToIDMap],
      [Device::configure])
    - [phosphor-power-supply/psu_manager.hpp] (class [PSUManager])

    C++ exceptions are modelled by an outcome type and a state-and-exception
    monad: a call either returns normally or throws, and in both cases it
    hands back the state it has reached (writes done before a throw stay
    done).

    The two functions of [device.cpp] call into classes whose code is not
    among the sources ([IDMap], [Configuration], [Rail]) and are called
    from [System], which is not among them either.  They are defined over
    arbitrary callees, and their properties are first proved in that
    generality.  The missing classes are then modelled from the spec, each
    under a comment that says so, with the action kinds and the hardware
    left as parameters: in particular a fault of a configuration action is
    caught and recorded where the Configuration is executed for its Device
    or Rail, so that [Device::configure], which has no handler, goes on to
    the rails.  A small register-level action engine instantiates the
    parameters where concrete runs are needed. *)

From Stdlib Require Import ZArith Lia.
From stdpp Require Import base gmap list strings pretty.

Set Default Proof Using "Type".

(* ===================================================================== *)
(** * Faults and outcomes                                                 *)
(* ===================================================================== *)

(** The faults that can unwind a call.  [InvalidArgument] is
    [std::invalid_argument] with its [what()] text (thrown by the [Chassis]
    constructor); the other two are the spec's [HardwareTransactionFault]
    (a failed bus transaction) and [NotFound] (an identifier missing from
    the IDMap). *)
Inductive Fault : Type :=
| InvalidArgument (what : string)
| HardwareTransactionFault
| NotFound (id : string).

#[global] Instance Fault_eq_dec : EqDecision Fault.
Proof. solve_decision. Defined.

(** The spec's [BuildError] class: the faults of hierarchy assembly. *)
Definition BuildError (f : Fault) : bool :=
  match f with InvalidArgument _ => true | _ => false end.

Inductive Outcome (A : Type) : Type :=
| Normal (a : A)
| Throw (f : Fault).
Arguments Normal {A} a.
Arguments Throw {A} f.

(** A call acting on a state [S]. *)
Definition M (S A : Type) : Type := S → Outcome A * S.

Definition ret {S A} (a : A) : M S A := λ s, (Normal a, s).
Definition throw {S A} (f : Fault) : M S A := λ s, (Throw f, s).

(** Sequencing: an exception skips the rest. *)
Definition bind {S A B} (m : M S A) (k : A → M S B) : M S B :=
  λ s, match m s with
       | (Normal a, s') => k a s'
       | (Throw f, s') => (Throw f, s')
       end.

(** [try { m } catch (f) { h f }]. *)
Definition try_catch {S A} (m : M S A) (h : Fault → M S A) : M S A :=
  λ s, match m s with
       | (Normal a, s') => (Normal a, s')
       | (Throw f, s') => h f s'
       end.

Definition modify {S} (g : S → S) : M S unit := λ s, (Normal tt, g s).

Declare Scope cpp_scope.
Delimit Scope cpp_scope with cpp.
Notation "x <- m ;; k" := (bind m (λ x, k))
  (at level 100, m at next level, right associativity) : cpp_scope.
Notation "m ;; k" := (bind m (λ _, k))
  (at level 100, right associativity) : cpp_scope.
Open Scope cpp_scope.

(** A range-based [for] loop whose body may throw. *)
Fixpoint for_each {S A} (l : list A) (body : A → M S unit) : M S unit :=
  match l with
  | [] => ret tt
  | x :: l' => body x ;; for_each l' body
  end.

(* ===================================================================== *)
(** * The entity hierarchy                                                *)
(* ===================================================================== *)

Section Hierarchy.

(** The action classes are not among the sources: the kind of an action is
    a parameter of the whole development. *)
Context {Action : Type}.

(** An ordered, named sequence of actions. *)
Record Configuration : Type := mkConfiguration {
  cfg_id : string;
  cfg_actions : list Action
}.

(** Modelled from the spec: the [Rail] and [Device] classes are declared in
    headers that are not among the sources.  Their members are the ones
    [device.cpp] uses ([configuration], [rails]) and the attributes of the
    spec's data model: identifier, bus address, and the parallel monitoring
    action set of its section 2. *)
Record Rail : Type := mkRail {
  rail_id : string;
  rail_configuration : option Configuration;
  rail_monitoring : option Configuration
}.

Record Device : Type := mkDevice {
  device_id : string;
  device_address : Z;
  configuration : option Configuration;
  device_monitoring : option Configuration;
  rails : list Rail
}.

(** [class Chassis] (chassis.hpp): its two private members,
    [const unsigned int number] and
    [std::vector<std::unique_ptr<Device>> devices]. *)
Record Chassis : Type := mkChassis {
  number : Z;
  devices : list Device
}.

(** Modelled from the spec: [System] (system.hpp is not among the sources)
    is the root that owns all Chassis, in order. *)
Record System : Type := mkSystem {
  sys_chassis : list Chassis
}.

End Hierarchy.

Arguments Configuration : clear implicits.
Arguments Rail : clear implicits.
Arguments Device : clear implicits.
Arguments Chassis : clear implicits.
Arguments System : clear implicits.

(* ===================================================================== *)
(** * Chassis (chassis.hpp)                                               *)
(* ===================================================================== *)

(** The range of [unsigned int], the type of a chassis number. *)
Definition UINT_MAX : Z := 4294967295.
Definition unsigned_int (n : Z) : Prop := (0 ≤ n ≤ UINT_MAX)%Z.

Section ChassisClass.
Context {Action : Type}.

(** [Chassis::Chassis(unsigned int number, std::vector<...> devices)]: the
    members are initialised from the arguments, then the body rejects a
    number below 1 with [std::invalid_argument], whose text ends in
    [std::to_string(number)].  The argument [num] is an [unsigned int]. *)
Definition Chassis_new (num : Z) (devs : list (Device Action))
  : Outcome (Chassis Action) :=
  let this := {| number := num; devices := devs |} in
  if (num <? 1)%Z
  then Throw (InvalidArgument ("Invalid chassis number: " +:+ pretty num))
  else Normal this.

(** [Chassis::getDevices() const]. *)
Definition getDevices (this : Chassis Action) : list (Device Action) :=
  devices this.

(** [Chassis::getNumber() const]. *)
Definition getNumber (this : Chassis Action) : Z := number this.

End ChassisClass.

(* ===================================================================== *)
(** * Device (device.cpp)                                                 *)
(* ===================================================================== *)

(** The two member functions of [device.cpp].  What they call lives in
    classes that are not among the sources ([IDMap], [Configuration],
    [Rail]); each function is therefore defined over arbitrary callees,
    which may change the state they act on and may throw. *)

Section DeviceAddToIDMap.
Context {Action IDMap : Type}.
Variable addDevice : Device Action → M IDMap unit.
Variable addRail : Rail Action → M IDMap unit.

(** [void Device::addToIDMap(IDMap& idMap)]: the device itself, then its
    rails in order. *)
Definition Device_addToIDMap (this : Device Action) : M IDMap unit :=
  addDevice this ;;
  for_each (rails this) (λ rail, addRail rail).

End DeviceAddToIDMap.

Section DeviceConfigure.
Context {Action S : Type}.
Variable execute :
  Configuration Action → System Action → Chassis Action → Device Action
  → M S unit.
Variable rail_configure :
  Rail Action → System Action → Chassis Action → Device Action → M S unit.

(** [void Device::configure(System& system, Chassis& chassis)]: the
    device's own configuration if it has one, then every rail in order.
    There is no handler in the function: an exception leaving either call
    leaves [configure] at once. *)
Definition Device_configure (this : Device Action) (system : System Action)
    (chassis : Chassis Action) : M S unit :=
  match configuration this with
  | Some c => execute c system chassis this
  | None => ret tt
  end ;;
  for_each (rails this) (λ rail, rail_configure rail system chassis this).

End DeviceConfigure.

(** Callees that do nothing but report, for observing which calls
    [Device::configure] makes: the state is the list of the rails whose
    configuration was called, oldest first.  A configuration either returns
    or raises a given fault; configuring a rail reports the rail, or raises
    a given fault at the rail named [bad]. *)
Section Probes.
Context {Action : Type}.

Definition execute_returning
  : Configuration Action → System Action → Chassis Action → Device Action
    → M (list string) unit :=
  λ _ _ _ _, ret tt.

Definition execute_raising (f : Fault)
  : Configuration Action → System Action → Chassis Action → Device Action
    → M (list string) unit :=
  λ _ _ _ _, throw f.

Definition rail_reporting
  : Rail Action → System Action → Chassis Action → Device Action
    → M (list string) unit :=
  λ rail _ _ _, modify (λ log, log ++ [rail_id rail]).

Definition rail_raising (bad : string) (f : Fault)
  : Rail Action → System Action → Chassis Action → Device Action
    → M (list string) unit :=
  λ rail _ _ _,
    if bool_decide (rail_id rail = bad) then throw f
    else modify (λ log, log ++ [rail_id rail]).

End Probes.

(* ===================================================================== *)
(** * The identifier registry                                             *)
(* ===================================================================== *)

Section Registry.
Context {Action : Type}.

(** Modelled from the spec: the [IDMap] class (id_map.hpp is not among the
    sources).  It maps a unique textual identifier to a Device or a Rail;
    an entry stands for the reference the C++ map holds.  [addDevice] and
    [addRail] register the entity under its identifier and fail on an
    identifier that is already registered, with an invalid-argument fault
    (the text of the fault is the model's own); [getDevice] and [getRail]
    return the registered entity or fail with [NotFound]. *)
Inductive Entity : Type :=
| DeviceEntry (d : Device Action)
| RailEntry (r : Rail Action).

Definition addEntry (id : string) (e : Entity) : M (gmap string Entity) unit :=
  λ idMap,
    match idMap !! id with
    | Some _ => throw (InvalidArgument ("Duplicate ID: " +:+ id)) idMap
    | None => (Normal tt, <[id := e]> idMap)
    end.

Definition addDevice (device : Device Action) : M (gmap string Entity) unit :=
  addEntry (device_id device) (DeviceEntry device).

Definition addRail (rail : Rail Action) : M (gmap string Entity) unit :=
  addEntry (rail_id rail) (RailEntry rail).

Definition getDevice (idMap : gmap string Entity) (id : string)
  : Outcome (Device Action) :=
  match idMap !! id with
  | Some (DeviceEntry d) => Normal d
  | _ => Throw (NotFound id)
  end.

Definition getRail (idMap : gmap string Entity) (id : string)
  : Outcome (Rail Action) :=
  match idMap !! id with
  | Some (RailEntry r) => Normal r
  | _ => Throw (NotFound id)
  end.

(** Modelled from the spec: the population walk, "walking the same
    hierarchy and registering every Device and Rail by its identifier";
    its code is not among the sources. *)
Definition System_addToIDMap (system : System Action)
  : M (gmap string Entity) unit :=
  for_each (sys_chassis system) (λ chassis,
    for_each (getDevices chassis) (λ device,
      Device_addToIDMap addDevice addRail device)).

(** The registry of a hierarchy is built once, from the empty map. *)
Definition buildIDMap (system : System Action)
  : Outcome unit * gmap string Entity :=
  System_addToIDMap system ∅.

(** Registering a list of entries in order. *)
Definition register_all (es : list (string * Entity))
  : M (gmap string Entity) unit :=
  for_each es (λ p, addEntry p.1 p.2).

(** The registrations of a hierarchy, in the order of the walk. *)
Definition device_entries (d : Device Action) : list (string * Entity) :=
  (device_id d, DeviceEntry d)
    :: map (λ r, (rail_id r, RailEntry r)) (rails d).

Definition system_entries (system : System Action) : list (string * Entity) :=
  flat_map (λ ch, flat_map device_entries (getDevices ch))
           (sys_chassis system).

Definition all_devices (system : System Action) : list (Device Action) :=
  flat_map getDevices (sys_chassis system).

Definition all_rails (system : System Action) : list (Rail Action) :=
  flat_map rails (all_devices system).

End Registry.

Arguments Entity : clear implicits.

(* ===================================================================== *)
(** * Execution: configuration and monitoring passes                      *)
(* ===================================================================== *)

(** What a pass leaves in the call trace.  Every event is written by the
    callee it names, on entry: [EvExecute] by [Configuration::execute],
    with the chassis, device and (for the Configuration of a Rail) rail of
    the context it was given; [EvRail] by [Rail::configure]; [EvAction] at
    the start of the [index]-th action run on behalf of an entity.  The
    trace is only ever appended to and never read by the code. *)
Inductive Event : Type :=
| EvExecute (chassis : Z) (device : string) (rail : option string)
| EvRail (chassis : Z) (device rail : string)
| EvAction (entity : string) (index : nat).

#[global] Instance Event_eq_dec : EqDecision Event.
Proof. solve_decision. Defined.

(** The entries to a Configuration or to a Rail. *)
Definition is_visit (e : Event) : bool :=
  match e with
  | EvExecute _ _ _ | EvRail _ _ _ => true
  | EvAction _ _ => false
  end.

(** The entries to the own Configuration of a Device. *)
Definition is_device_level (e : Event) : bool :=
  match e with EvExecute _ _ None => true | _ => false end.

(** The entity a Configuration entered with these identifiers runs for:
    the rail if there is one, the device otherwise. *)
Definition executed_for (expected : list Event) (id : string) : Prop :=
  ∃ chassis device rail,
    EvExecute chassis device rail ∈ expected ∧ id = default device rail.

Section Execution.

(** The action kinds and the hardware they drive (the bus attachment and
    the chips behind it) are parameters: neither is among the sources. *)
Context {Action Hardware : Type}.

(** Modelled from the spec: the per-execution context, "current System,
    current Chassis, current Device, optionally current Rail, plus a scratch
    register for intermediate comparison results". *)
Record ExecutionContext : Type := mkContext {
  ctx_system : System Action;
  ctx_chassis : Chassis Action;
  ctx_device : Device Action;
  ctx_rail : option (Rail Action);
  last_result : bool
}.

(** What a pass acts on: the hierarchy (the passes get it by non-const
    reference), the hardware, the call trace, and the faults recorded
    against entities, oldest first. *)
Record State : Type := mkState {
  hier : System Action;
  hw : Hardware;
  trace : list Event;
  fault_log : list (string * Fault)
}.

(** Executing one action: it may change the hardware, returns the context
    with its last-result register updated, or throws. *)
Variable Action_execute : Action → ExecutionContext → M Hardware ExecutionContext.

Definition note (e : Event) : M State unit :=
  modify (λ st, {| hier := hier st; hw := hw st;
                   trace := trace st ++ [e]; fault_log := fault_log st |}).

Definition record_fault (entity : string) (f : Fault) : M State unit :=
  modify (λ st, {| hier := hier st; hw := hw st; trace := trace st;
                   fault_log := fault_log st ++ [(entity, f)] |}).

Definition on_hardware {A} (m : M Hardware A) : M State A :=
  λ st, let '(r, h) := m (hw st) in
        (r, {| hier := hier st; hw := h;
               trace := trace st; fault_log := fault_log st |}).

(** Modelled from the spec: the context handed to the Configuration of a
    device, "pointing at {system, chassis, this device}", and the one
    handed to the Configuration of a rail, "additionally pointing at the
    current Rail"; each is "created fresh", with the last-result register
    clear. *)
Definition device_context (system : System Action) (chassis : Chassis Action)
    (device : Device Action) : ExecutionContext :=
  {| ctx_system := system; ctx_chassis := chassis; ctx_device := device;
     ctx_rail := None; last_result := false |}.

Definition rail_context (system : System Action) (chassis : Chassis Action)
    (device : Device Action) (rail : Rail Action) : ExecutionContext :=
  {| ctx_system := system; ctx_chassis := chassis; ctx_device := device;
     ctx_rail := Some rail; last_result := false |}.

(** The Device or Rail a context runs for: the rail if it points at one,
    the device otherwise. *)
Definition context_entity (ctx : ExecutionContext) : string :=
  match ctx_rail ctx with
  | Some rail => rail_id rail
  | None => device_id (ctx_device ctx)
  end.

(** Modelled from the spec: the action loop of [Configuration::execute]
    (configuration.hpp is not among the sources), which "runs each Action
    in order" and is "short-circuited ... the moment any action ... raises
    a hardware fault".  The actions run from index [k] on, on behalf of
    [entity]; the result is the context the last action left. *)
Fixpoint run_actions (entity : string) (k : nat) (actions : list Action)
    (ctx : ExecutionContext) : M State ExecutionContext :=
  match actions with
  | [] => ret ctx
  | a :: rest =>
      note (EvAction entity k) ;;
      ctx' <- on_hardware (Action_execute a ctx) ;;
      run_actions entity (S k) rest ctx'
  end.

(** Modelled from the spec: [Configuration::execute(context)].  A fault of
    an action ends the loop, and is "caught at the Device/Rail configure
    ... boundary, recorded against that Device/Rail's fault state"
    (section 7): the Configuration is "reported as failed", and the call
    returns to [Device::configure] or [Rail::configure], so that the
    Device goes on, "regardless of that Configuration's outcome", to
    "configure every owned Rail in order" (section 4.4). *)
Definition execute_in (this : Configuration Action) (ctx : ExecutionContext)
  : M State unit :=
  note (EvExecute (getNumber (ctx_chassis ctx)) (device_id (ctx_device ctx))
                  (rail_id <$> ctx_rail ctx)) ;;
  try_catch (run_actions (context_entity ctx) 0 (cfg_actions this) ctx ;;
             ret tt)
            (λ f, record_fault (context_entity ctx) f).

(** Modelled from the spec: [configuration->execute(system, chassis,
    device)], as [Device::configure] calls it. *)
Definition Configuration_execute (this : Configuration Action)
    (system : System Action) (chassis : Chassis Action)
    (device : Device Action) : M State unit :=
  execute_in this (device_context system chassis device).

(** Modelled from the spec: the same call as [Rail::configure] makes
    it. *)
Definition Configuration_execute_rail (this : Configuration Action)
    (system : System Action) (chassis : Chassis Action)
    (device : Device Action) (rail : Rail Action) : M State unit :=
  execute_in this (rail_context system chassis device rail).

(** Modelled from the spec: [Rail::configure(system, chassis, device)]
    (rail.cpp is not among the sources) "executes the Rail's own
    Configuration (if any) with a context additionally pointing at the
    current Rail". *)
Definition Rail_configure (this : Rail Action) (system : System Action)
    (chassis : Chassis Action) (device : Device Action) : M State unit :=
  note (EvRail (getNumber chassis) (device_id device) (rail_id this)) ;;
  match rail_configuration this with
  | Some c => Configuration_execute_rail c system chassis device this
  | None => ret tt
  end.

(** [Device::configure] of device.cpp with these two callees. *)
Definition configure_device (system : System Action)
    (chassis : Chassis Action) (device : Device Action) : M State unit :=
  Device_configure Configuration_execute Rail_configure device system chassis.

(** Modelled from the spec: [System::configure()] (system.cpp is not among
    the sources): "for each Chassis, for each Device,
    Device::configure()". *)
Definition configure_chassis (system : System Action)
    (chassis : Chassis Action) : M State unit :=
  for_each (getDevices chassis) (configure_device system chassis).

Definition System_configure : M State unit :=
  λ st, for_each (sys_chassis (hier st)) (configure_chassis (hier st)) st.

(** Modelled from the spec: monitoring "follows the same traversal shape"
    with the monitoring action set; a fault of a monitoring action is
    "downgraded to a recorded fault and execution of the remaining actions
    in that Configuration continues". *)
Fixpoint monitor_actions (entity : string) (actions : list Action)
    (ctx : ExecutionContext) : M State ExecutionContext :=
  match actions with
  | [] => ret ctx
  | a :: rest =>
      ctx' <- try_catch (on_hardware (Action_execute a ctx))
                        (λ f, record_fault entity f ;; ret ctx) ;;
      monitor_actions entity rest ctx'
  end.

(** Modelled from the spec: the monitoring action set of an entity, run in
    the context of that entity, and the cascade of section 4.4 with
    "the monitoring action set" substituted. *)
Definition monitor_in (this : Configuration Action) (ctx : ExecutionContext)
  : M State unit :=
  monitor_actions (context_entity ctx) (cfg_actions this) ctx ;; ret tt.

Definition Rail_monitor (this : Rail Action) (system : System Action)
    (chassis : Chassis Action) (device : Device Action) : M State unit :=
  match rail_monitoring this with
  | Some c => monitor_in c (rail_context system chassis device this)
  | None => ret tt
  end.

Definition Device_monitor (this : Device Action) (system : System Action)
    (chassis : Chassis Action) : M State unit :=
  match device_monitoring this with
  | Some c => monitor_in c (device_context system chassis this)
  | None => ret tt
  end ;;
  for_each (rails this) (λ rail, Rail_monitor rail system chassis this).

Definition System_monitor : M State unit :=
  λ st, for_each (sys_chassis (hier st)) (λ chassis,
          for_each (getDevices chassis) (λ device,
            Device_monitor device (hier st) chassis)) st.

(** The order in which a hierarchy is built, as the visits a configure
    pass has to make: per chassis its devices; per device its own
    Configuration if it has one, then its rails; per rail the rail and then
    its Configuration if it has one. *)
Definition cfg_visit (chassis : Chassis Action) (d : Device Action)
    (rail : option (Rail Action)) (c : option (Configuration Action))
  : list Event :=
  match c with
  | Some _ => [EvExecute (getNumber chassis) (device_id d) (rail_id <$> rail)]
  | None => []
  end.

Definition rail_visits (chassis : Chassis Action) (d : Device Action)
    (r : Rail Action) : list Event :=
  EvRail (getNumber chassis) (device_id d) (rail_id r)
    :: cfg_visit chassis d (Some r) (rail_configuration r).

Definition device_visits (chassis : Chassis Action) (d : Device Action)
  : list Event :=
  cfg_visit chassis d None (configuration d)
    ++ flat_map (rail_visits chassis d) (rails d).

Definition chassis_visits (chassis : Chassis Action) : list Event :=
  flat_map (device_visits chassis) (getDevices chassis).

Definition construction_order (system : System Action) : list Event :=
  flat_map chassis_visits (sys_chassis system).

(** The device-level part of it: the own Configurations of the devices. *)
Definition device_order (system : System Action) : list Event :=
  flat_map (λ ch, flat_map (λ d, cfg_visit ch d None (configuration d))
                           (getDevices ch))
           (sys_chassis system).

(** The identifiers of the Devices and Rails that have a monitoring action
    set. *)
Definition rail_monitored (r : Rail Action) : list string :=
  match rail_monitoring r with Some _ => [rail_id r] | None => [] end.

Definition device_monitored (d : Device Action) : list string :=
  match device_monitoring d with Some _ => [device_id d] | None => [] end
    ++ flat_map rail_monitored (rails d).

Definition system_monitored (system : System Action) : list string :=
  flat_map (λ ch, flat_map device_monitored (getDevices ch))
           (sys_chassis system).

(** What a configure traversal that went from [st] to [st'] has done,
    against the visits [expected] of the part of the hierarchy it covers:
    the hierarchy is unchanged, trace and fault log have only grown, the
    visits made are exactly the expected ones, in order, and every fault
    recorded is recorded against an entity whose Configuration was
    executed. *)
Definition traversed (expected : list Event) (st st' : State) : Prop :=
  hier st' = hier st
  ∧ ∃ t fl,
      trace st' = trace st ++ t
      ∧ fault_log st' = fault_log st ++ fl
      ∧ List.filter is_visit t = expected
      ∧ ∀ id f, (id, f) ∈ fl → executed_for expected id.

(** What a monitoring traversal has done, against the identifiers [ids] of
    the monitored entities it covers: the hierarchy is unchanged and every
    fault recorded is recorded against one of them. *)
Definition monitored (ids : list string) (st st' : State) : Prop :=
  hier st' = hier st
  ∧ ∃ fl, fault_log st' = fault_log st ++ fl
          ∧ ∀ id f, (id, f) ∈ fl → id ∈ ids.

(** The hierarchy is the same object graph in both states. *)
Definition same_hierarchy (st st' : State) : Prop := hier st' = hier st.

(** A pass over the whole hierarchy. *)
Inductive Pass : Type := configure_pass | monitor_pass.

Definition run_pass (p : Pass) : M State unit :=
  match p with
  | configure_pass => System_configure
  | monitor_pass => System_monitor
  end.

End Execution.

Arguments ExecutionContext : clear implicits.
Arguments State : clear implicits.

(* ===================================================================== *)
(** * A register-level action engine                                     *)
(* ===================================================================== *)

Module RegisterEngine.

(** Modelled from the spec: the bus attachment, [readRegister] and
    [writeRegister] on a device address and a register, each returning a
    value or a fault.  The chips are a register file keyed by (device
    address, register); a transaction on a key in [nack] is not
    acknowledged (the spec's "I2C transaction error, chip NACK"). *)
Record Bus : Type := mkBus {
  regs : gmap (Z * Z) Z;
  nack : gset (Z * Z)
}.

Definition readRegister (address reg : Z) : M Bus Z :=
  λ b, if decide ((address, reg) ∈ nack b)
       then throw HardwareTransactionFault b
       else (Normal (default 0%Z (regs b !! (address, reg))), b).

Definition writeRegister (address reg value : Z) : M Bus unit :=
  λ b, if decide ((address, reg) ∈ nack b)
       then throw HardwareTransactionFault b
       else (Normal tt, {| regs := <[(address, reg) := value]> (regs b);
                           nack := nack b |}).

(** Modelled from the spec: the action kinds of its section 4.3 that act on
    registers of the current device.  A write stores a fixed value; a
    compare reads a register and "stores its boolean outcome in the
    context's last-result register"; [not] negates the last result; [if]
    runs its condition and then one of two nested action lists, chosen by
    the last result. *)
#[warnings="-register-all"]
Inductive RegAction : Type :=
| WriteAction (reg value : Z)
| CompareAction (reg value : Z)
| NotAction (a : RegAction)
| IfAction (cond : RegAction) (then_actions else_actions : list RegAction).

Definition set_last_result (b : bool) (ctx : ExecutionContext RegAction)
  : ExecutionContext RegAction :=
  {| ctx_system := ctx_system ctx; ctx_chassis := ctx_chassis ctx;
     ctx_device := ctx_device ctx; ctx_rail := ctx_rail ctx;
     last_result := b |}.

Fixpoint RegAction_execute (a : RegAction) (ctx : ExecutionContext RegAction)
    {struct a} : M Bus (ExecutionContext RegAction) :=
  match a with
  | WriteAction reg value =>
      writeRegister (device_address (ctx_device ctx)) reg value ;;
      ret ctx
  | CompareAction reg value =>
      x <- readRegister (device_address (ctx_device ctx)) reg ;;
      ret (set_last_result (bool_decide (x = value)) ctx)
  | NotAction a' =>
      ctx' <- RegAction_execute a' ctx ;;
      ret (set_last_result (negb (last_result ctx')) ctx')
  | IfAction cond then_actions else_actions =>
      ctx' <- RegAction_execute cond ctx ;;
      let run := fix run (l : list RegAction)
                         (c : ExecutionContext RegAction) {struct l}
                   : M Bus (ExecutionContext RegAction) :=
                   match l with
                   | [] => ret c
                   | x :: l' => c' <- RegAction_execute x c ;; run l' c'
                   end in
      if last_result ctx' then run then_actions ctx'
      else run else_actions ctx'
  end.

(** The loop [if] runs over the action list it has chosen, as a function
    of its own. *)
Definition RegAction_run
  : list RegAction → ExecutionContext RegAction
    → M Bus (ExecutionContext RegAction) :=
  fix run (l : list RegAction) (c : ExecutionContext RegAction) {struct l} :=
    match l with
    | [] => ret c
    | x :: l' => c' <- RegAction_execute x c ;; run l' c'
    end.

(** The registers an action may test (the ones its compares read) and the
    registers it may write, on the device at [address], whichever branches
    are taken. *)
Fixpoint action_reads (address : Z) (a : RegAction) : list (Z * Z) :=
  match a with
  | WriteAction _ _ => []
  | CompareAction reg _ => [(address, reg)]
  | NotAction a' => action_reads address a'
  | IfAction cond then_actions else_actions =>
      action_reads address cond
        ++ flat_map (action_reads address) then_actions
        ++ flat_map (action_reads address) else_actions
  end.

Fixpoint action_write_keys (address : Z) (a : RegAction) : list (Z * Z) :=
  match a with
  | WriteAction reg _ => [(address, reg)]
  | CompareAction _ _ => []
  | NotAction a' => action_write_keys address a'
  | IfAction cond then_actions else_actions =>
      action_write_keys address cond
        ++ flat_map (action_write_keys address) then_actions
        ++ flat_map (action_write_keys address) else_actions
  end.

Definition cfg_reads (address : Z) (c : option (Configuration RegAction))
  : list (Z * Z) :=
  match c with
  | Some c => flat_map (action_reads address) (cfg_actions c)
  | None => []
  end.

Definition cfg_write_keys (address : Z)
    (c : option (Configuration RegAction)) : list (Z * Z) :=
  match c with
  | Some c => flat_map (action_write_keys address) (cfg_actions c)
  | None => []
  end.

Definition device_reads (d : Device RegAction) : list (Z * Z) :=
  cfg_reads (device_address d) (configuration d)
  ++ flat_map (λ r, cfg_reads (device_address d) (rail_configuration r))
              (rails d).

Definition device_write_keys (d : Device RegAction) : list (Z * Z) :=
  cfg_write_keys (device_address d) (configuration d)
  ++ flat_map (λ r, cfg_write_keys (device_address d) (rail_configuration r))
              (rails d).

Definition system_reads (s : System RegAction) : list (Z * Z) :=
  flat_map (λ ch, flat_map device_reads (getDevices ch)) (sys_chassis s).

Definition system_write_keys (s : System RegAction) : list (Z * Z) :=
  flat_map (λ ch, flat_map device_write_keys (getDevices ch)) (sys_chassis s).

(** Writes, each a key (device address, register) and a value, applied in
    order to a register file. *)
Definition apply_writes (ws : list (Z * Z * Z)) (m : gmap (Z * Z) Z)
  : gmap (Z * Z) Z :=
  foldl (λ m w, <[w.1 := w.2]> m) m ws.

(** Two register files read the same in the registers [K] (a register that
    was never written reads 0). *)
Definition agree (K : list (Z * Z)) (m m' : gmap (Z * Z) Z) : Prop :=
  ∀ k, k ∈ K → default 0%Z (m !! k) = default 0%Z (m' !! k).

(** A bus computation that tests only registers in [K] and writes only
    registers in [W]: where all of these respond, it returns, and both its
    result and the writes it makes are determined by what the registers in
    [K] hold. *)
Definition steady {A} (K W : list (Z * Z)) (Q : A → Prop) (m : M Bus A)
  : Prop :=
  ∀ (N : gset (Z * Z)) (ρ : gmap (Z * Z) Z),
    (∀ k, k ∈ K ++ W → k ∉ N) →
    ∃ a ws, Q a ∧ (∀ k, k ∈ ws.*1 → k ∈ W)
      ∧ ∀ b, nack b = N → agree K ρ (regs b) →
          m b = (Normal a, {| regs := apply_writes ws (regs b); nack := N |}).

(** The same for a part of a pass, which in addition leaves the hierarchy
    and the fault log alone. *)
Definition steady_pass {A} (K W : list (Z * Z)) (Q : A → Prop)
    (m : M (State RegAction Bus) A) : Prop :=
  ∀ (N : gset (Z * Z)) (ρ : gmap (Z * Z) Z),
    (∀ k, k ∈ K ++ W → k ∉ N) →
    ∃ a ws, Q a ∧ (∀ k, k ∈ ws.*1 → k ∈ W)
      ∧ ∀ st, nack (hw st) = N → agree K ρ (regs (hw st)) →
          ∃ st', m st = (Normal a, st')
            ∧ hier st' = hier st ∧ fault_log st' = fault_log st
            ∧ hw st' = {| regs := apply_writes ws (regs (hw st));
                          nack := N |}.

(** What an action tests and writes, with the device its context points
    at; the context it returns points at the same device. *)
Definition action_steady (a : RegAction) : Prop :=
  ∀ ctx,
    steady (action_reads (device_address (ctx_device ctx)) a)
           (action_write_keys (device_address (ctx_device ctx)) a)
           (λ ctx', ctx_device ctx' = ctx_device ctx)
           (RegAction_execute a ctx).

(** ** A small machine used in examples

    Chassis 1 holds a regulator at address 112 whose configuration has
    three register writes and which owns rails [vdd] and [vcs], and a second
    regulator at address 113 with one write and the rail [vio].  Register 1
    of the first regulator does not acknowledge. *)
Definition write3 : Configuration RegAction :=
  {| cfg_id := "set_voltages";
     cfg_actions := [WriteAction 0 10; WriteAction 1 20; WriteAction 2 30] |}.

Definition rail_vdd : Rail RegAction :=
  {| rail_id := "vdd";
     rail_configuration :=
       Some {| cfg_id := "set_vdd"; cfg_actions := [WriteAction 7 1] |};
     rail_monitoring := None |}.

Definition rail_vcs : Rail RegAction :=
  {| rail_id := "vcs"; rail_configuration := None; rail_monitoring := None |}.

Definition rail_vio : Rail RegAction :=
  {| rail_id := "vio";
     rail_configuration :=
       Some {| cfg_id := "set_vio"; cfg_actions := [WriteAction 7 2] |};
     rail_monitoring := None |}.

Definition reg_a : Device RegAction :=
  {| device_id := "reg_a"; device_address := 112;
     configuration := Some write3; device_monitoring := None;
     rails := [rail_vdd; rail_vcs] |}.

Definition reg_b : Device RegAction :=
  {| device_id := "reg_b"; device_address := 113;
     configuration :=
       Some {| cfg_id := "set_b"; cfg_actions := [WriteAction 0 5] |};
     device_monitoring := None;
     rails := [rail_vio] |}.

Definition chassis1 : Chassis RegAction :=
  {| number := 1; devices := [reg_a; reg_b] |}.

Definition machine : System RegAction := {| sys_chassis := [chassis1] |}.

Definition power_on (s : System RegAction) (bad : gset (Z * Z))
  : State RegAction Bus :=
  {| hier := s; hw := {| regs := ∅; nack := bad |};
     trace := []; fault_log := [] |}.

Definition faulty_start : State RegAction Bus :=
  power_on machine {[ (112%Z, 1%Z) ]}.

(** The same machine when instead register 7 of the first regulator, the
    one the configuration of rail [vdd] writes, does not acknowledge. *)
Definition rail_fault_start : State RegAction Bus :=
  power_on machine {[ (112%Z, 7%Z) ]}.

(** A hierarchy in which a rail of the second regulator reuses the
    identifier of the first regulator. *)
Definition clash_machine : System RegAction :=
  {| sys_chassis :=
       [ {| number := 1;
            devices :=
              [ reg_a;
                {| device_id := "reg_b"; device_address := 113;
                   configuration := None; device_monitoring := None;
                   rails := [ {| rail_id := "reg_a";
                                 rail_configuration := None;
                                 rail_monitoring := None |} ] |} ] |} ] |}.



(** A regulator whose configuration branches on register 5 and, where it
    writes that register, writes the value the branch was taken on. *)
Definition guarded : Device RegAction :=
  {| device_id := "guarded"; device_address := 80;
     configuration :=
       Some {| cfg_id := "select";
               cfg_actions := [IfAction (CompareAction 5 0)
                                        [WriteAction 1 5; WriteAction 5 0]
                                        [WriteAction 1 6];
                               WriteAction 2 7] |};
     device_monitoring := None; rails := [rail_vio] |}.

Definition guarded_machine : System RegAction :=
  {| sys_chassis := [ {| number := 1; devices := [reg_a; guarded] |} ] |}.

(** Two chassis that each hold a regulator [D1] and a regulator [D2]. *)
Definition dev_D1 : Device RegAction :=
  {| device_id := "D1"; device_address := 16;
     configuration :=
       Some {| cfg_id := "set_d1"; cfg_actions := [WriteAction 0 1] |};
     device_monitoring := None; rails := [] |}.

Definition dev_D2 : Device RegAction :=
  {| device_id := "D2"; device_address := 17;
     configuration :=
       Some {| cfg_id := "set_d2"; cfg_actions := [WriteAction 0 2] |};
     device_monitoring := None; rails := [] |}.

Definition two_chassis : System RegAction :=
  {| sys_chassis := [ {| number := 1; devices := [dev_D1; dev_D2] |};
                      {| number := 2; devices := [dev_D1; dev_D2] |} ] |}.

(** A monitored regulator: its own monitoring set compares register 3 and
    then register 4; its rail [vmon] is monitored by a compare of register
    9.  Register 3 does not acknowledge. *)
Definition rail_vmon : Rail RegAction :=
  {| rail_id := "vmon"; rail_configuration := None;
     rail_monitoring :=
       Some {| cfg_id := "watch_vmon";
               cfg_actions := [CompareAction 9 0] |} |}.

Definition watched : Device RegAction :=
  {| device_id := "watched"; device_address := 96;
     configuration := None;
     device_monitoring :=
       Some {| cfg_id := "watch";
               cfg_actions := [CompareAction 3 0; CompareAction 4 0] |};
     rails := [rail_vmon] |}.

Definition watched_machine : System RegAction :=
  {| sys_chassis := [ {| number := 1; devices := [watched; reg_b] |} ] |}.

Definition watched_start : State RegAction Bus :=
  power_on watched_machine {[ (96%Z, 3%Z) ]}.

End RegisterEngine.

(* ===================================================================== *)
(** * Ownership during Chassis construction (chassis.hpp)                 *)
(* ===================================================================== *)

Module Ownership.

(** A [std::unique_ptr<Device>] is the address of a Device on the heap, and
    [live] is the set of Devices that currently exist.  A frame of the
    constructor call holds the by-value parameter [devices] and the two
    members of the object under construction, [None] until initialised. *)
Record Frame : Type := mkFrame {
  param_devices : list positive;
  this_number : option Z;
  this_devices : option (list positive);
  live : gset positive
}.

(** The caller's vector is moved into the by-value parameter: the caller
    keeps an empty vector. *)
Definition pass_by_move (caller_vector : list positive) (heap : gset positive)
  : list positive * Frame :=
  ([], {| param_devices := caller_vector; this_number := None;
          this_devices := None; live := heap |}).

(** The member initialisers [number{number}, devices{std::move(devices)}]. *)
Definition init_members (num : Z) (f : Frame) : Frame :=
  {| param_devices := [];
     this_number := Some num;
     this_devices := Some (param_devices f);
     live := live f |}.

(** The constructor body: [if (number < 1) throw std::invalid_argument]. *)
Definition ctor_body (num : Z) : M Frame unit :=
  if (num <? 1)%Z
  then throw (InvalidArgument ("Invalid chassis number: " +:+ pretty num))
  else ret tt.

(** Unwinding a constructor that threw: the members already initialised
    and the parameter are destroyed, and a destroyed [unique_ptr] deletes
    the Device it owns. *)
Definition unwind (f : Frame) : Frame :=
  {| param_devices := [];
     this_number := None;
     this_devices := None;
     live := live f ∖ list_to_set (default [] (this_devices f))
                    ∖ list_to_set (param_devices f) |}.

(** [Chassis{number, std::move(devices)}] as the caller sees it: the
    outcome (on success the object's number and the Devices it now owns),
    the caller's vector afterwards, and the heap afterwards. *)
Definition construct (num : Z) (caller_vector : list positive)
    (heap : gset positive)
  : Outcome (Z * list positive) * list positive * gset positive :=
  let '(caller_vector', f0) := pass_by_move caller_vector heap in
  match ctor_body num (init_members num f0) with
  | (Normal _, f) =>
      (Normal (num, default [] (this_devices f)), caller_vector', live f)
  | (Throw e, f) => (Throw e, caller_vector', live (unwind f))
  end.

End Ownership.

(* ===================================================================== *)
(** * PSUManager (psu_manager.hpp)                                        *)
(* ===================================================================== *)

Module PSU.

Section Manager.

(** The D-Bus connection the [bus] member refers to, the event loop and
    everything else outside the object; and the match objects of
    sdbusplus. *)
Context {External Match : Type}.

(** The member function a timer calls back. *)
Inductive Callback : Type := analyze_callback.

(** [sdeventplus::utility::Timer]: its callback and its interval in
    milliseconds. *)
Record Timer : Type := mkTimer {
  timer_callback : Callback;
  timer_interval : Z
}.

(** The data members of [class PSUManager] other than the reference
    [bus], which points into the external state. *)
Record PSUManager : Type := mkPSUManager {
  timer : Timer;
  powerOn : bool;
  powerOnMatch : option Match
}.

(** [PSUManager(bus, e, i)]: the timer is bound to [analyze] with interval
    [i]; the other members take their default initialisers. *)
Definition PSUManager_new (i : Z) : PSUManager :=
  {| timer := {| timer_callback := analyze_callback; timer_interval := i |};
     powerOn := false;
     powerOnMatch := None |}.

(** [void initialize() {}]. *)
Definition initialize : M (PSUManager * External) unit := ret tt.

(** [void clearFaults() {}]. *)
Definition clearFaults : M (PSUManager * External) unit := ret tt.

(** [void analyze() {}]. *)
Definition analyze : M (PSUManager * External) unit := ret tt.

(** A call of one of the three member functions. *)
Inductive Call : Type := call_initialize | call_clearFaults | call_analyze.

Definition perform (c : Call) : M (PSUManager * External) unit :=
  match c with
  | call_initialize => initialize
  | call_clearFaults => clearFaults
  | call_analyze => analyze
  end.

End Manager.

Arguments PSUManager : clear implicits.

End PSU.

(* ===================================================================== *)
(** * Recording callees                                                   *)
(* ===================================================================== *)

(** Callees that record every call made to them, oldest first, for reading
    off the calls the two functions of [device.cpp] make and the arguments
    they pass.  A configuration and the configuration of a rail record
    their own identifier together with the device and the chassis number
    they were handed; a registration records the identifier of the entity
    it was handed. *)
Section Recorders.
Context {Action : Type}.

Definition execute_recording
  : Configuration Action → System Action → Chassis Action → Device Action
    → M (list (string * string * Z)) unit :=
  λ c _ chassis device,
    modify (λ log, log ++ [(cfg_id c, device_id device, getNumber chassis)]).

Definition rail_recording
  : Rail Action → System Action → Chassis Action → Device Action
    → M (list (string * string * Z)) unit :=
  λ rail _ chassis device,
    modify (λ log,
      log ++ [(rail_id rail, device_id device, getNumber chassis)]).

Definition addDevice_recording : Device Action → M (list string) unit :=
  λ device, modify (λ log, log ++ [device_id device]).

Definition addRail_recording : Rail Action → M (list string) unit :=
  λ rail, modify (λ log, log ++ [rail_id rail]).

End Recorders.

(** The identifiers that come before the first occurrence of [bad]. *)
Fixpoint ids_before (bad : string) (ids : list string) : list string :=
  match ids with
  | [] => []
  | id :: rest =>
      if bool_decide (id = bad) then [] else id :: ids_before bad rest
  end.

(* ===================================================================== *)
(** * Properties                                                          *)
(* ===================================================================== *)

(** ** Sequencing and loops *)

Section MonadFacts.
Context {S : Type}.

Lemma bind_normal {A B} (m : M S A) (k : A → M S B) s a s' :
  m s = (Normal a, s') → bind m k s = k a s'.
Proof. unfold bind. by intros ->. Qed.

Lemma bind_throw {A B} (m : M S A) (k : A → M S B) s f s' :
  m s = (Throw f, s') → bind m k s = (Throw f, s').
Proof. unfold bind. by intros ->. Qed.

Lemma bind_inv {A B} (m : M S A) (k : A → M S B) s r s' :
  bind m k s = (r, s') →
  (∃ a s1, m s = (Normal a, s1) ∧ k a s1 = (r, s'))
  ∨ (∃ f, m s = (Throw f, s') ∧ r = Throw f).
Proof.
  unfold bind. destruct (m s) as [[a|f] s1]; intros H.
  - left. eauto.
  - right. exists f. by inversion H.
Qed.

Lemma for_each_ext {A} (l : list A) (body1 body2 : A → M S unit) s :
  (∀ x s, x ∈ l → body1 x s = body2 x s) →
  for_each l body1 s = for_each l body2 s.
Proof.
  revert s. induction l as [|x l IH]; intros s Hext; [done|].
  simpl. unfold bind. rewrite Hext by left.
  destruct (body2 x s) as [[[]|f] s1]; [|done].
  apply IH. intros y s2 Hy. apply Hext. by right.
Qed.

Lemma for_each_app {A} (l1 l2 : list A) (body : A → M S unit) s :
  for_each (l1 ++ l2) body s
  = (for_each l1 body ;; for_each l2 body) s.
Proof.
  revert s. induction l1 as [|x l1 IH]; intros s; [reflexivity|].
  simpl. unfold bind.
  destruct (body x s) as [[[]|f] s1]; [|reflexivity].
  rewrite IH. reflexivity.
Qed.

Lemma for_each_map {A B} (g : A → B) (l : list A) (body : B → M S unit) s :
  for_each (map g l) body s = for_each l (λ x, body (g x)) s.
Proof.
  revert s. induction l as [|x l IH]; intros s; [done|].
  simpl. unfold bind. destruct (body (g x) s) as [[[]|f] s1]; [|done].
  apply IH.
Qed.

Lemma for_each_flat_map {A B} (g : A → list B) (l : list A)
    (body : B → M S unit) s :
  for_each (flat_map g l) body s = for_each l (λ x, for_each (g x) body) s.
Proof.
  revert s. induction l as [|x l IH]; intros s; [done|].
  simpl. rewrite for_each_app. unfold bind.
  destruct (for_each (g x) body s) as [[[]|f] s1]; [|done].
  apply IH.
Qed.

(** A loop that throws has run a prefix of the list normally and thrown in
    the body of the next element; the elements after it were not reached. *)
Lemma for_each_throw {A} (l : list A) (body : A → M S unit) s f s' :
  for_each l body s = (Throw f, s') →
  ∃ l1 x l2 s1, l = l1 ++ x :: l2
    ∧ for_each l1 body s = (Normal tt, s1)
    ∧ body x s1 = (Throw f, s').
Proof.
  revert s. induction l as [|x l IH]; intros s H; [done|].
  simpl in H. apply bind_inv in H as [([] & s1 & Hx & Hl)|(f' & Hx & [= ->])].
  - destruct (IH _ Hl) as (l1 & y & l2 & s2 & -> & H1 & Hy).
    exists (x :: l1), y, l2, s2. split; [done|]. split; [|done].
    simpl. by rewrite (bind_normal _ _ _ _ _ Hx).
  - exists [], x, l, s. done.
Qed.


(** An invariant of every body is an invariant of the loop. *)
Lemma for_each_preserves {A} (P : S → Prop) (l : list A)
    (body : A → M S unit) s :
  (∀ x s, x ∈ l → P s → P (body x s).2) →
  P s → P (for_each l body s).2.
Proof.
  revert s. induction l as [|x l IH]; intros s Hb Hs; [done|].
  simpl. unfold bind.
  specialize (Hb x s (list_elem_of_here _ _) Hs) as Hx.
  destruct (body x s) as [[[]|f] s1]; [|done].
  apply IH; [|done]. intros y s2 Hy. apply Hb. by right.
Qed.

(** A loop whose bodies never throw and each step along a preorder does
    not throw and steps along it too. *)
Lemma for_each_steps {A} (R : S → S → Prop) `{!Reflexive R, !Transitive R}
    (l : list A) (body : A → M S unit) s :
  (∀ x s, x ∈ l → ∃ s', body x s = (Normal tt, s') ∧ R s s') →
  ∃ s', for_each l body s = (Normal tt, s') ∧ R s s'.
Proof.
  revert s. induction l as [|x l IH]; intros s Hb; [by exists s|].
  destruct (Hb x s) as (s1 & Hx & H1); [by left|].
  destruct (IH s1) as (s2 & Hl & H2).
  { intros y s' Hy. apply Hb. by right. }
  exists s2. simpl. rewrite (bind_normal _ _ _ _ _ Hx).
  split; [done|]. by transitivity s1.
Qed.

End MonadFacts.

(** ** Chassis construction *)

Section ChassisFacts.
Context {Action : Type}.

(** A Chassis that was constructed has a number of at least 1 and holds
    the devices it was given. *)
Lemma Chassis_new_inv (n : Z) (devs : list (Device Action)) c :
  Chassis_new n devs = Normal c → (1 ≤ n)%Z ∧ number c = n ∧ devices c = devs.
Proof.
  unfold Chassis_new. destruct (Z.ltb_spec n 1); [done|].
  intros [= <-]. done.
Qed.

(** C2.  For every chassis number [n] (an [unsigned int]): construction
    with [n < 1] fails with the invalid-argument fault, a [BuildError],
    whose text names the number; construction with [n >= 1] succeeds and
    [getNumber()] of the new object returns exactly [n]. *)
Theorem Chassis_new_validates_number (n : Z) (devs : list (Device Action)) :
  unsigned_int n →
  ((n < 1)%Z →
     Chassis_new n devs = Throw (InvalidArgument "Invalid chassis number: 0")
     ∧ BuildError (InvalidArgument "Invalid chassis number: 0") = true)
  ∧ ((1 ≤ n)%Z →
     ∃ c, Chassis_new n devs = Normal c ∧ getNumber c = n).
Proof.
  intros [Hlo Hhi]. split.
  - intros Hlt. assert (n = 0%Z) as -> by lia. done.
  - intros Hge. unfold Chassis_new.
    destruct (Z.ltb_spec n 1); [lia|]. by eexists.
Qed.

End ChassisFacts.

Lemma Chassis_new_validates_number_witness :
  Chassis_new (Action := unit) 0 []
    = Throw (InvalidArgument "Invalid chassis number: 0")
  ∧ ∃ c, Chassis_new (Action := unit) 3 [] = Normal c ∧ getNumber c = 3%Z.
Proof.
  split.
  - apply (Chassis_new_validates_number 0 []);
      [unfold unsigned_int, UINT_MAX; lia | lia].
  - apply (Chassis_new_validates_number 3 []);
      [unfold unsigned_int, UINT_MAX; lia | lia].
Defined.

(** ** Ownership of the devices when construction fails *)

Module OwnershipFacts.
Import Ownership.

(** X5.  On success nothing is destroyed: the new object owns exactly the
    Devices the caller handed over, in their order, the caller's vector is
    empty, and the heap is as it was. *)
Lemma construct_success (n : Z) (devs : list positive) (heap : gset positive) :
  (1 ≤ n)%Z → construct n devs heap = (Normal (n, devs), [], heap).
Proof.
  intros Hn. unfold construct, ctor_body. simpl.
  destruct (Z.ltb_spec n 1); [lia|done].
Qed.

(** The ownership view and the value view of the constructor agree on the
    outcome: both succeed with the number, or both throw the same fault. *)
Lemma construct_agrees_with_Chassis_new {Action} (n : Z)
    (ptrs : list positive) (heap : gset positive)
    (devs : list (Device Action)) :
  match (construct n ptrs heap).1.1, Chassis_new n devs with
  | Normal (n', _), Normal c => n' = getNumber c
  | Throw e, Throw e' => e = e'
  | _, _ => False
  end.
Proof.
  unfold construct, ctor_body, Chassis_new. simpl.
  by destruct (n <? 1)%Z.
Qed.

(** C9.  Construction is not atomic in its [devices] argument.  The
    vector is moved into the member before the body checks the number (the
    frame the body runs in already holds the Devices in [this->devices] and
    an empty parameter), so when construction fails for number 0 the caller
    is left with an empty vector and every Device it passed has been
    destroyed, while every other Device is untouched. *)
Theorem failed_construction_consumes_devices
    (devs : list positive) (heap : gset positive) :
  let entry := (pass_by_move devs heap).2 in
  this_devices (init_members 0 entry) = Some devs
  ∧ param_devices (init_members 0 entry) = []
  ∧ ∃ heap',
      construct 0 devs heap
        = (Throw (InvalidArgument "Invalid chassis number: 0"), [], heap')
      ∧ (∀ p, p ∈ devs → p ∉ heap')
      ∧ (∀ p, p ∉ devs → p ∈ heap' ↔ p ∈ heap).
Proof.
  simpl. split; [done|]. split; [done|].
  eexists. split; [reflexivity|]. simpl. split.
  - intros p Hp. rewrite !elem_of_difference, elem_of_list_to_set. tauto.
  - intros p Hp. rewrite !elem_of_difference, !elem_of_list_to_set.
    pose proof (not_elem_of_empty (C := gset positive) p). tauto.
Qed.

(** The failed construction is observable: a caller that passed a Device
    which was alive does not get back the state it started from. *)
Lemma failed_construction_not_atomic p (devs : list positive)
    (heap : gset positive) :
  p ∈ devs → p ∈ heap →
  (construct 0 devs heap).1.2 ≠ devs ∧ (construct 0 devs heap).2 ≠ heap.
Proof.
  intros Hp Hlive. simpl. split.
  - intros <-. by apply not_elem_of_nil in Hp.
  - intros Heq. rewrite <-Heq in Hlive.
    rewrite !elem_of_difference, elem_of_list_to_set in Hlive. tauto.
Qed.

End OwnershipFacts.

(** ** The power-supply manager *)

Module PSUFacts.
Import PSU.

Section ManagerFacts.
Context {External Match : Type}.

(** Any sequence of the three calls returns normally in the state it
    started from. *)
Lemma calls_keep_state (calls : list Call)
    (s : PSUManager Match * External) :
  for_each calls perform s = (Normal tt, s).
Proof.
  induction calls as [|c calls IH]; [done|].
  simpl. rewrite (bind_normal _ _ _ tt s); [done|]. by destruct c.
Qed.

(** X6.  A manager that has just been constructed has its power state
    off, no power-on match, and its timer bound to [analyze] with the
    polling interval, and keeps all three through any such calls. *)
Lemma fresh_manager_unchanged (i : Z) (ext : External) (calls : list Call) :
  let mgr := (for_each calls perform
                (PSUManager_new (Match := Match) i, ext)).2.1 in
  powerOn mgr = false
  ∧ powerOnMatch mgr = None
  ∧ timer mgr = {| timer_callback := analyze_callback; timer_interval := i |}.
Proof. simpl. by rewrite calls_keep_state. Qed.

(** C10.  [initialize()], [clearFaults()] and [analyze()] are no-ops: each
    returns normally and leaves the manager ([timer], [powerOn],
    [powerOnMatch]) and everything outside it exactly as they were; so does
    any sequence of such calls. *)
Theorem PSUManager_calls_are_noops
    (mgr : PSUManager Match) (ext : External) :
  initialize (mgr, ext) = (Normal tt, (mgr, ext))
  ∧ clearFaults (mgr, ext) = (Normal tt, (mgr, ext))
  ∧ analyze (mgr, ext) = (Normal tt, (mgr, ext))
  ∧ ∀ calls : list Call,
      for_each calls perform (mgr, ext) = (Normal tt, (mgr, ext)).
Proof.
  split; [done|]. split; [done|]. split; [done|].
  intros calls. apply calls_keep_state.
Qed.

End ManagerFacts.

End PSUFacts.

(** ** The identifier registry *)

Section RegistryFacts.
Context {Action : Type}.
Implicit Types (idMap : gmap string (Entity Action)).
Implicit Types (es : list (string * Entity Action)).

(** [Device::addToIDMap] registers the entries of the device in order. *)
Lemma Device_addToIDMap_entries (d : Device Action) idMap :
  Device_addToIDMap addDevice addRail d idMap
  = register_all (device_entries d) idMap.
Proof.
  unfold Device_addToIDMap, register_all, device_entries. simpl.
  unfold bind, addDevice.
  destruct (addEntry _ _ idMap) as [[[]|f] m1]; [|done].
  by rewrite for_each_map.
Qed.

Lemma System_addToIDMap_entries (system : System Action) idMap :
  System_addToIDMap system idMap
  = register_all (system_entries system) idMap.
Proof.
  unfold System_addToIDMap, register_all, system_entries.
  rewrite for_each_flat_map. apply for_each_ext. intros ch m _.
  rewrite for_each_flat_map. apply for_each_ext. intros d m' _.
  apply Device_addToIDMap_entries.
Qed.

(** What a run of registrations amounts to.  It succeeds exactly when the
    identifiers are pairwise distinct and all free in the starting map;
    then every entry is found under its identifier and nothing else has
    changed.  Otherwise it fails with a [BuildError]. *)
Lemma register_all_spec es idMap :
  match register_all es idMap with
  | (Normal _, idMap') =>
      NoDup es.*1
      ∧ (∀ id, id ∈ es.*1 → idMap !! id = None)
      ∧ (∀ id e, (id, e) ∈ es → idMap' !! id = Some e)
      ∧ (∀ id, id ∉ es.*1 → idMap' !! id = idMap !! id)
  | (Throw f, _) =>
      BuildError f = true
      ∧ ¬ (NoDup es.*1 ∧ ∀ id, id ∈ es.*1 → idMap !! id = None)
  end.
Proof.
  revert idMap. induction es as [|[id e] es IH]; intros idMap.
  - simpl. split; [constructor|].
    split; [by intros id ?%elem_of_nil|].
    split; [by intros id e ?%elem_of_nil|done].
  - unfold register_all in *. simpl. unfold bind, addEntry at 1. simpl.
    destruct (idMap !! id) as [e0|] eqn:Hid.
    + split; [done|]. intros [_ Hfree].
      specialize (Hfree id (list_elem_of_here _ _)). congruence.
    + specialize (IH (<[id:=e]> idMap)).
      destruct (for_each es _ (<[id:=e]> idMap)) as [[[]|f] idMap'].
      * destruct IH as (Hnd & Hfree & Hin & Hout).
        assert (id ∉ es.*1) as Hfresh.
        { intros Hmem. specialize (Hfree _ Hmem).
          by rewrite lookup_insert_eq in Hfree. }
        split; [by constructor|]. split; [|split].
        -- intros id' [->|Hmem]%elem_of_cons; [done|].
           specialize (Hfree _ Hmem).
           rewrite lookup_insert_ne in Hfree; [done|]. by intros ->.
        -- intros id' e' [[= -> ->]|Hmem]%elem_of_cons; [|by apply Hin].
           rewrite Hout by done. apply lookup_insert_eq.
        -- intros id' Hnot. apply not_elem_of_cons in Hnot as [Hne Hnot].
           rewrite Hout by done. by rewrite lookup_insert_ne.
      * destruct IH as [Hbuild Hno]. split; [done|].
        intros [Hnd Hfree]. apply Hno.
        apply NoDup_cons in Hnd as [Hfresh Hnd]. split; [done|].
        intros id' Hmem. rewrite lookup_insert_ne by (by intros ->).
        apply Hfree. by right.
Qed.

Lemma device_entry_in_system (system : System Action) (d : Device Action) :
  d ∈ all_devices system →
  (device_id d, DeviceEntry d) ∈ system_entries system.
Proof.
  unfold all_devices, system_entries.
  rewrite !list_elem_of_In, !in_flat_map.
  intros (ch & Hch & Hd). exists ch. split; [done|].
  apply in_flat_map. exists d. split; [done|]. by left.
Qed.

Lemma rail_entry_in_system (system : System Action) (r : Rail Action) :
  r ∈ all_rails system →
  (rail_id r, RailEntry r) ∈ system_entries system.
Proof.
  unfold all_rails, all_devices, system_entries.
  rewrite !list_elem_of_In, !in_flat_map.
  intros (d & (ch & Hch & Hd)%in_flat_map & Hr). exists ch. split; [done|].
  apply in_flat_map. exists d. split; [done|]. right.
  apply in_map_iff. by exists r.
Qed.

(** The walk succeeds exactly on hierarchies whose identifiers are
    pairwise distinct, and otherwise fails with a [BuildError]. *)
Lemma buildIDMap_outcome (system : System Action) :
  match buildIDMap system with
  | (Normal _, _) => NoDup (system_entries system).*1
  | (Throw f, _) =>
      BuildError f = true ∧ ¬ NoDup (system_entries system).*1
  end.
Proof.
  unfold buildIDMap. rewrite System_addToIDMap_entries.
  pose proof (register_all_spec (system_entries system) ∅) as H.
  destruct (register_all _ _) as [[[]|f] m]; [tauto|].
  destruct H as [Hb Hno]. split; [done|]. intros Hnd. apply Hno.
  split; [done|]. intros id _. apply lookup_empty.
Qed.

(** C4.  After the population walk ([Device::addToIDMap] over every device
    of the hierarchy, from the empty map) has completed, every Device and
    every Rail of the hierarchy is registered under its identifier:
    [getDevice] and [getRail] on that identifier return exactly the
    registered object. *)
Theorem IDMap_population_registers_everything
    (system : System Action) idMap :
  buildIDMap system = (Normal tt, idMap) →
  (∀ d, d ∈ all_devices system → getDevice idMap (device_id d) = Normal d)
  ∧ (∀ r, r ∈ all_rails system → getRail idMap (rail_id r) = Normal r).
Proof.
  unfold buildIDMap. rewrite System_addToIDMap_entries. intros Hwalk.
  pose proof (register_all_spec (system_entries system) ∅) as H.
  rewrite Hwalk in H. destruct H as (_ & _ & Hin & _). split.
  - intros d Hd. unfold getDevice.
    by rewrite (Hin _ _ (device_entry_in_system _ _ Hd)).
  - intros r Hr. unfold getRail.
    by rewrite (Hin _ _ (rail_entry_in_system _ _ Hr)).
Qed.

(** C5.  Registering under an identifier that is already registered fails,
    for a Device and for a Rail alike, with a [BuildError] and without
    changing the map; and the population walk, which runs when the
    hierarchy is built, completes exactly on hierarchies whose identifiers
    are pairwise distinct and fails with a [BuildError] on every other, so
    no duplicate is left to be met when actions execute. *)
Theorem IDMap_rejects_duplicate_identifiers :
  (∀ idMap (d : Device Action),
     is_Some (idMap !! device_id d) →
     ∃ f, addDevice d idMap = (Throw f, idMap) ∧ BuildError f = true)
  ∧ (∀ idMap (r : Rail Action),
     is_Some (idMap !! rail_id r) →
     ∃ f, addRail r idMap = (Throw f, idMap) ∧ BuildError f = true)
  ∧ (∀ system : System Action,
     (NoDup (system_entries system).*1 →
        ∃ idMap, buildIDMap system = (Normal tt, idMap))
     ∧ (¬ NoDup (system_entries system).*1 →
        ∃ f idMap, buildIDMap system = (Throw f, idMap)
                   ∧ BuildError f = true)).
Proof.
  split; [|split].
  - intros idMap d [e He]. unfold addDevice, addEntry. rewrite He. eauto.
  - intros idMap r [e He]. unfold addRail, addEntry. rewrite He. eauto.
  - intros system. pose proof (buildIDMap_outcome system) as H.
    destruct (buildIDMap system) as [[[]|f] m]; split.
    + eauto.
    + done.
    + intros Hnd. by destruct H.
    + intros _. destruct H. eauto.
Qed.

End RegistryFacts.

(** ** Device::configure, whatever it calls *)

Section DeviceConfigureFacts.
Context {Action S : Type}.
Variable execute :
  Configuration Action → System Action → Chassis Action → Device Action
  → M S unit.
Variable rail_configure :
  Rail Action → System Action → Chassis Action → Device Action → M S unit.

(** A fault leaving the device's own configuration leaves
    [Device::configure] with the state as that call left it: no rail is
    configured. *)
Lemma Device_configure_execute_throws
    (d : Device Action) system chassis c s f s1 :
  configuration d = Some c →
  execute c system chassis d s = (Throw f, s1) →
  Device_configure execute rail_configure d system chassis s = (Throw f, s1).
Proof.
  intros Hc Hx. unfold Device_configure. rewrite Hc.
  by apply bind_throw.
Qed.

(** When the device's own configuration returns normally, the rails are
    configured in order, starting from the state it left. *)
Lemma Device_configure_execute_returns
    (d : Device Action) system chassis c s s1 :
  configuration d = Some c →
  execute c system chassis d s = (Normal tt, s1) →
  Device_configure execute rail_configure d system chassis s
  = for_each (rails d) (λ rail, rail_configure rail system chassis d) s1.
Proof.
  intros Hc Hx. unfold Device_configure. rewrite Hc.
  by rewrite (bind_normal _ _ _ _ _ Hx).
Qed.

(** A device without a configuration goes straight to its rails. *)
Lemma Device_configure_no_configuration (d : Device Action) system chassis s :
  configuration d = None →
  Device_configure execute rail_configure d system chassis s
  = for_each (rails d) (λ rail, rail_configure rail system chassis d) s.
Proof. intros Hc. unfold Device_configure. by rewrite Hc. Qed.

(** A fault leaving the configuration of a rail leaves [Device::configure]
    as well; the rails after it are not configured. *)
Lemma Device_configure_rail_throws
    (d : Device Action) system chassis s s1 l1 r l2 s2 f s3 :
  match configuration d with
  | Some c => execute c system chassis d s
  | None => (Normal tt, s)
  end = (Normal tt, s1) →
  rails d = l1 ++ r :: l2 →
  for_each l1 (λ rail, rail_configure rail system chassis d) s1
    = (Normal tt, s2) →
  rail_configure r system chassis d s2 = (Throw f, s3) →
  Device_configure execute rail_configure d system chassis s = (Throw f, s3).
Proof.
  intros Hc Hr H1 Hf.
  assert (Device_configure execute rail_configure d system chassis s
          = for_each (rails d)
              (λ rail, rail_configure rail system chassis d) s1) as ->.
  { destruct (configuration d) as [c|] eqn:E.
    - by apply Device_configure_execute_returns with c.
    - injection Hc as <-. by apply Device_configure_no_configuration. }
  rewrite Hr, for_each_app. rewrite (bind_normal _ _ _ _ _ H1).
  simpl. by apply bind_throw.
Qed.

(** Conversely, a fault leaves [Device::configure] only if it left one of
    the calls it makes. *)
Lemma Device_configure_throw_inv (d : Device Action) system chassis s f s' :
  Device_configure execute rail_configure d system chassis s = (Throw f, s') →
  (∃ c, configuration d = Some c
        ∧ execute c system chassis d s = (Throw f, s'))
  ∨ (∃ s1 l1 r l2 s2,
       match configuration d with
       | Some c => execute c system chassis d s
       | None => (Normal tt, s)
       end = (Normal tt, s1)
       ∧ rails d = l1 ++ r :: l2
       ∧ for_each l1 (λ rail, rail_configure rail system chassis d) s1
         = (Normal tt, s2)
       ∧ rail_configure r system chassis d s2 = (Throw f, s')).
Proof.
  unfold Device_configure. intros H.
  apply bind_inv in H as [([] & s1 & Hc & Hl)|(f' & Hc & [= <-])].
  - right. apply for_each_throw in Hl as (l1 & r & l2 & s2 & Hr & H1 & Hf).
    exists s1, l1, r, l2, s2. repeat split; try done.
    by destruct (configuration d).
  - left. destruct (configuration d) as [c|]; [eauto|done].
Qed.

(** [Device::configure] changes nothing by itself: whatever its callees
    leave invariant, it leaves invariant. *)
Lemma Device_configure_preserves (P : S → Prop)
    (d : Device Action) system chassis s :
  (∀ c s, P s → P (execute c system chassis d s).2) →
  (∀ r s, r ∈ rails d → P s → P (rail_configure r system chassis d s).2) →
  P s → P (Device_configure execute rail_configure d system chassis s).2.
Proof.
  intros Hx Hr Hs. unfold Device_configure, bind.
  destruct (configuration d) as [c|].
  - specialize (Hx c s Hs).
    destruct (execute c system chassis d s) as [[[]|f] s1]; [|done].
    apply for_each_preserves; [|done]. intros r s2 Hin. by apply Hr.
  - simpl. apply for_each_preserves; [|done]. intros r s2 Hin. by apply Hr.
Qed.

End DeviceConfigureFacts.

(** ** Device::configure raises nothing of its own *)

Section DeviceConfigureTotal.
Context {Action S : Type}.


End DeviceConfigureTotal.

(** ** The configuration pass *)

Section ExecutionFacts.
Context {Action Hardware : Type}.
Variable Action_execute :
  Action → ExecutionContext Action → M Hardware (ExecutionContext Action).
Implicit Types (st : State Action Hardware).

(** A loop whose bodies never throw and each make a step of a relation
    indexed by lists, composes the steps: the loop does not throw and its
    step is indexed by the concatenation. *)
Lemma for_each_indexed {S A X} (R : list X → S → S → Prop)
    (l : list A) (body : A → M S unit) (v : A → list X) s :
  (∀ s, R [] s s) →
  (∀ v1 v2 s s1 s2, R v1 s s1 → R v2 s1 s2 → R (v1 ++ v2) s s2) →
  (∀ x s, x ∈ l → ∃ s', body x s = (Normal tt, s') ∧ R (v x) s s') →
  ∃ s', for_each l body s = (Normal tt, s') ∧ R (flat_map v l) s s'.
Proof.
  intros Hrefl Htrans. revert s. induction l as [|x l IH]; intros s Hb.
  - exists s. split; [done|]. apply Hrefl.
  - destruct (Hb x s) as (s1 & Hx & H1); [by left|].
    destruct (IH s1) as (s2 & Hl & H2).
    { intros y s' Hy. apply Hb. by right. }
    exists s2. simpl. rewrite (bind_normal _ _ _ _ _ Hx).
    split; [done|]. by eapply Htrans.
Qed.

Lemma filter_visit_actions entity (l : list nat) :
  List.filter is_visit (map (EvAction entity) l) = [].
Proof. induction l; [done|by simpl]. Qed.

Lemma filter_device_level_of_visits (t : list Event) :
  List.filter is_device_level (List.filter is_visit t)
  = List.filter is_device_level t.
Proof.
  induction t as [|e t IH]; [done|].
  destruct e as [? ? []| |]; simpl; by rewrite ?IH.
Qed.

Lemma executed_for_app v1 v2 id :
  executed_for v1 id ∨ executed_for v2 id → executed_for (v1 ++ v2) id.
Proof.
  intros [(ch & dev & rail & Hin & ->)|(ch & dev & rail & Hin & ->)];
    exists ch, dev, rail; (split; [|done]); apply elem_of_app; auto.
Qed.

Lemma traversed_refl st : traversed [] st st.
Proof.
  split; [done|]. exists [], []. rewrite !app_nil_r.
  repeat split. intros id f Hin. by apply elem_of_nil in Hin.
Qed.

Lemma traversed_trans v1 v2 st st1 st2 :
  traversed v1 st st1 → traversed v2 st1 st2 → traversed (v1 ++ v2) st st2.
Proof.
  intros (Hh1 & t1 & fl1 & Ht1 & Hf1 & Hv1 & He1)
         (Hh2 & t2 & fl2 & Ht2 & Hf2 & Hv2 & He2).
  split; [congruence|]. exists (t1 ++ t2), (fl1 ++ fl2).
  rewrite Ht2, Ht1, Hf2, Hf1, List.filter_app, !app_assoc, Hv1, Hv2.
  repeat split. intros id f [Hin|Hin]%elem_of_app; apply executed_for_app.
  - left. by eapply He1.
  - right. by eapply He2.
Qed.

(** A loop of traversals is a traversal of the concatenated parts. *)
Lemma for_each_traversed {A} (l : list A)
    (body : A → M (State Action Hardware) unit) (v : A → list Event) st :
  (∀ x st, x ∈ l →
     ∃ st', body x st = (Normal tt, st') ∧ traversed (v x) st st') →
  ∃ st', for_each l body st = (Normal tt, st')
         ∧ traversed (flat_map v l) st st'.
Proof.
  apply (for_each_indexed traversed).
  - apply traversed_refl.
  - apply traversed_trans.
Qed.

(** Running a list of actions: the actions are started in order from index
    [k]; all of them if the run returns, and otherwise only up to the one
    that threw.  Hierarchy and fault log are not touched. *)
Lemma run_actions_spec entity actions k ctx st r st' :
  run_actions Action_execute entity k actions ctx st = (r, st') →
  hier st' = hier st ∧ fault_log st' = fault_log st
  ∧ ∃ n, trace st' = trace st ++ map (EvAction entity) (seq k n)
         ∧ match r with
           | Normal _ => n = length actions
           | Throw _ => 0 < n ≤ length actions
           end.
Proof.
  revert k ctx st. induction actions as [|a actions IH]; intros k ctx st.
  - intros [= <- <-]. repeat split. exists 0. by rewrite app_nil_r.
  - simpl. unfold bind, note, modify, on_hardware. simpl.
    destruct (Action_execute a ctx (hw st)) as [[ctx'|f] h].
    + intros H. apply IH in H as (Hh & Hf & n & Ht & Hn). simpl in *.
      repeat split; try done. exists (S n). split.
      * rewrite Ht, <-app_assoc. done.
      * destruct r; lia.
    + intros [= <- <-]. simpl. repeat split. exists 1. simpl. split; [done|lia].
Qed.



(** [Configuration::execute] never throws: it returns in the state the
    action loop reached, with the fault recorded if the loop threw. *)
Lemma execute_in_unfold (c : Configuration Action) ctx st :
  execute_in Action_execute c ctx st
  = match run_actions Action_execute (context_entity ctx) 0 (cfg_actions c)
            ctx
            (note (EvExecute (getNumber (ctx_chassis ctx))
                             (device_id (ctx_device ctx))
                             (rail_id <$> ctx_rail ctx)) st).2 with
    | (Normal _, st1) => (Normal tt, st1)
    | (Throw f, st1) =>
        (Normal tt, (record_fault (context_entity ctx) f st1).2)
    end.
Proof.
  unfold execute_in, bind, try_catch, note, modify, ret. simpl.
  by destruct (run_actions _ _ _ _ _ _) as [[ctx'|f] st1].
Qed.

Lemma execute_in_spec (c : Configuration Action) ctx st :
  ∃ st', execute_in Action_execute c ctx st = (Normal tt, st')
    ∧ traversed [EvExecute (getNumber (ctx_chassis ctx))
                           (device_id (ctx_device ctx))
                           (rail_id <$> ctx_rail ctx)] st st'.
Proof.
  rewrite execute_in_unfold.
  destruct (run_actions _ _ _ _ _ _) as [[ctx'|f] st1] eqn:E;
    apply run_actions_spec in E as (Hh & Hf & n & Ht & _); simpl in *.
  - exists st1. split; [done|]. split; [done|].
    eexists (_ :: map (EvAction (context_entity ctx)) (seq 0 n)), [].
    rewrite Ht, <-app_assoc, app_nil_r. simpl.
    rewrite filter_visit_actions. repeat split; try done.
    intros id f' Hin. by apply elem_of_nil in Hin.
  - eexists. split; [done|]. split; [done|]. simpl.
    eexists (_ :: map (EvAction (context_entity ctx)) (seq 0 n)),
            [(context_entity ctx, f)].
    rewrite Ht, Hf, <-app_assoc. simpl.
    rewrite filter_visit_actions. repeat split; try done.
    intros id f' [= -> ->]%list_elem_of_singleton.
    eexists _, _, _. split; [by left|].
    unfold context_entity. by destruct (ctx_rail ctx).
Qed.

(** Configuring a rail enters the rail and executes its Configuration if
    it has one; it never throws. *)
Lemma Rail_configure_spec (r : Rail Action) system chassis d st :
  ∃ st', Rail_configure Action_execute r system chassis d st
         = (Normal tt, st')
    ∧ traversed (rail_visits chassis d r) st st'.
Proof.
  unfold Rail_configure, rail_visits, Configuration_execute_rail.
  set (ev := EvRail (getNumber chassis) (device_id d) (rail_id r)).
  assert (traversed [ev] st (note ev st).2) as Hev.
  { split; [done|]. exists [ev], []. rewrite app_nil_r.
    repeat split. intros id f Hin. by apply elem_of_nil in Hin. }
  assert (note ev st = (Normal tt, (note ev st).2)) as Hnote by done.
  rewrite (bind_normal _ _ _ _ _ Hnote).
  destruct (rail_configuration r) as [c|]; simpl.
  - destruct (execute_in_spec c (rail_context system chassis d r)
                (note ev st).2) as (st' & Hrun & Ht).
    exists st'. split; [done|].
    apply (traversed_trans [ev] _ _ _ _ Hev Ht).
  - eexists. split; [done|]. done.
Qed.

(** The loop over the rails of a device configures every rail, in
    order. *)
Lemma configure_rails_spec (rs : list (Rail Action)) system chassis d st :
  ∃ st',
    for_each rs (λ rail, Rail_configure Action_execute rail system chassis d)
      st = (Normal tt, st')
    ∧ traversed (flat_map (rail_visits chassis d) rs) st st'.
Proof.
  apply for_each_traversed. intros r s _. apply Rail_configure_spec.
Qed.

(** [Device::configure] with the configuration and rail code above never
    throws, executes the Configuration of the device if it has one, and
    then configures every rail. *)
Lemma configure_device_spec (d : Device Action) system chassis st :
  ∃ st', configure_device Action_execute system chassis d st
         = (Normal tt, st')
    ∧ traversed (device_visits chassis d) st st'.
Proof.
  unfold configure_device, device_visits.
  destruct (configuration d) as [c|] eqn:E; simpl.
  - destruct (execute_in_spec c (device_context system chassis d) st)
      as (st1 & H1 & Ht1).
    destruct (configure_rails_spec (rails d) system chassis d st1)
      as (st2 & H2 & Ht2).
    exists st2. split.
    + rewrite (Device_configure_execute_returns _ _ _ _ _ _ _ _ E H1). done.
    + apply (traversed_trans [_] _ _ _ _ Ht1 Ht2).
  - rewrite Device_configure_no_configuration by done.
    apply configure_rails_spec.
Qed.

Lemma configure_devices_spec (ds : list (Device Action)) system chassis st :
  ∃ st', for_each ds (configure_device Action_execute system chassis) st
         = (Normal tt, st')
    ∧ traversed (flat_map (device_visits chassis) ds) st st'.
Proof.
  apply for_each_traversed. intros d s _. apply configure_device_spec.
Qed.

Lemma configure_chassis_spec (chassis : Chassis Action) system st :
  ∃ st', configure_chassis Action_execute system chassis st
         = (Normal tt, st')
    ∧ traversed (chassis_visits chassis) st st'.
Proof. apply configure_devices_spec. Qed.

(** The whole pass never throws and is a traversal of the hierarchy in the
    order of its construction. *)
Lemma System_configure_spec st :
  ∃ st', System_configure Action_execute st = (Normal tt, st')
    ∧ traversed (construction_order (hier st)) st st'.
Proof.
  unfold System_configure, construction_order.
  apply for_each_traversed. intros ch s _. apply configure_chassis_spec.
Qed.

(** The device-level part of the construction order. *)
Lemma device_level_device_visits (chassis : Chassis Action) d :
  List.filter is_device_level (device_visits chassis d)
  = cfg_visit chassis d None (configuration d).
Proof.
  unfold device_visits. rewrite List.filter_app.
  assert (List.filter is_device_level
            (flat_map (rail_visits chassis d) (rails d)) = []) as ->.
  { induction (rails d) as [|r rs IH]; [done|].
    simpl. rewrite List.filter_app, IH.
    by destruct (rail_configuration r). }
  rewrite app_nil_r. by destruct (configuration d).
Qed.

Lemma device_level_construction_order (system : System Action) :
  List.filter is_device_level (construction_order system)
  = device_order system.
Proof.
  unfold construction_order, device_order, chassis_visits.
  induction (sys_chassis system) as [|ch chs IH]; [done|].
  simpl. rewrite List.filter_app, IH. f_equal.
  induction (getDevices ch) as [|d ds IHd]; [done|].
  simpl. by rewrite List.filter_app, IHd, device_level_device_visits.
Qed.

(** *** Monitoring *)

#[global] Instance same_hierarchy_refl :
  Reflexive (same_hierarchy (Action := Action) (Hardware := Hardware)).
Proof. by intros st. Qed.

#[global] Instance same_hierarchy_trans :
  Transitive (same_hierarchy (Action := Action) (Hardware := Hardware)).
Proof. unfold same_hierarchy. intros s1 s2 s3 H1 H2. congruence. Qed.

Lemma monitored_refl st : monitored [] st st.
Proof.
  split; [done|]. exists []. rewrite app_nil_r. split; [done|].
  intros id f Hin. by apply elem_of_nil in Hin.
Qed.

Lemma monitored_trans ids1 ids2 st st1 st2 :
  monitored ids1 st st1 → monitored ids2 st1 st2 →
  monitored (ids1 ++ ids2) st st2.
Proof.
  intros (Hh1 & fl1 & Hf1 & He1) (Hh2 & fl2 & Hf2 & He2).
  split; [congruence|]. exists (fl1 ++ fl2).
  rewrite Hf2, Hf1, app_assoc. split; [done|].
  intros id f [Hin|Hin]%elem_of_app; apply elem_of_app.
  - left. by eapply He1.
  - right. by eapply He2.
Qed.

Lemma for_each_monitored {A} (l : list A)
    (body : A → M (State Action Hardware) unit) (v : A → list string) st :
  (∀ x st, x ∈ l →
     ∃ st', body x st = (Normal tt, st') ∧ monitored (v x) st st') →
  ∃ st', for_each l body st = (Normal tt, st')
         ∧ monitored (flat_map v l) st st'.
Proof.
  apply (for_each_indexed monitored).
  - apply monitored_refl.
  - apply monitored_trans.
Qed.

(** The monitoring loop never throws; what it records, it records against
    the entity it runs for. *)
Lemma monitor_actions_spec entity actions ctx st :
  ∃ ctx' st', monitor_actions Action_execute entity actions ctx st
              = (Normal ctx', st')
    ∧ monitored [entity] st st'.
Proof.
  revert ctx st. induction actions as [|a actions IH]; intros ctx st.
  - exists ctx, st. split; [done|]. split; [done|].
    exists []. rewrite app_nil_r. split; [done|].
    intros id f Hin. by apply elem_of_nil in Hin.
  - simpl. unfold bind, try_catch, on_hardware, record_fault, modify. simpl.
    destruct (Action_execute a ctx (hw st)) as [[ctx'|f] h].
    + destruct (IH ctx' {| hier := hier st; hw := h; trace := trace st;
                           fault_log := fault_log st |})
        as (ctx2 & st' & -> & Hh & fl & Hf & He).
      exists ctx2, st'. split; [done|]. split; [done|]. by exists fl.
    + unfold ret. simpl.
      destruct (IH ctx {| hier := hier st; hw := h; trace := trace st;
                          fault_log := fault_log st ++ [(entity, f)] |})
        as (ctx2 & st' & -> & Hh & fl & Hf & He).
      exists ctx2, st'. split; [done|]. split; [done|]. simpl in *.
      exists ((entity, f) :: fl). split.
      * by rewrite Hf, <-app_assoc.
      * intros id f' [[= -> ->]|Hin]%elem_of_cons; [by left|].
        by eapply He.
Qed.



Lemma monitor_in_spec (c : Configuration Action) ctx st :
  ∃ st', monitor_in Action_execute c ctx st = (Normal tt, st')
    ∧ monitored [context_entity ctx] st st'.
Proof.
  unfold monitor_in.
  destruct (monitor_actions_spec (context_entity ctx) (cfg_actions c) ctx st)
    as (ctx' & st' & H & Hm).
  exists st'. by rewrite (bind_normal _ _ _ _ _ H).
Qed.

Lemma Rail_monitor_spec (r : Rail Action) system chassis d st :
  ∃ st', Rail_monitor Action_execute r system chassis d st = (Normal tt, st')
    ∧ monitored (rail_monitored r) st st'.
Proof.
  unfold Rail_monitor, rail_monitored. destruct (rail_monitoring r) as [c|].
  - apply (monitor_in_spec c (rail_context system chassis d r)).
  - exists st. split; [done|]. apply monitored_refl.
Qed.

Lemma Device_monitor_spec (d : Device Action) system chassis st :
  ∃ st', Device_monitor Action_execute d system chassis st = (Normal tt, st')
    ∧ monitored (device_monitored d) st st'.
Proof.
  unfold Device_monitor, device_monitored.
  assert (∃ st1, match device_monitoring d with
                 | Some c =>
                     monitor_in Action_execute c
                       (device_context system chassis d)
                 | None => ret tt
                 end st = (Normal tt, st1)
                 ∧ monitored match device_monitoring d with
                             | Some _ => [device_id d]
                             | None => []
                             end st st1)
    as (st1 & H1 & Hm1).
  { destruct (device_monitoring d) as [c|].
    - apply (monitor_in_spec c (device_context system chassis d)).
    - exists st. split; [done|]. apply monitored_refl. }
  rewrite (bind_normal _ _ _ _ _ H1).
  destruct (for_each_monitored (rails d)
              (λ rail, Rail_monitor Action_execute rail system chassis d)
              rail_monitored st1)
    as (st2 & H2 & Hm2).
  { intros r s _. apply Rail_monitor_spec. }
  exists st2. split; [done|]. by eapply monitored_trans.
Qed.

Lemma System_monitor_spec st :
  ∃ st', System_monitor Action_execute st = (Normal tt, st')
    ∧ monitored (system_monitored (hier st)) st st'.
Proof.
  unfold System_monitor, system_monitored.
  apply for_each_monitored. intros ch s _.
  apply for_each_monitored. intros d s' _.
  apply Device_monitor_spec.
Qed.

Lemma run_pass_spec (p : Pass) st :
  ∃ st', run_pass Action_execute p st = (Normal tt, st')
    ∧ same_hierarchy st st'.
Proof.
  destruct p; simpl.
  - destruct (System_configure_spec st) as (st' & H & Hh & _). by exists st'.
  - destruct (System_monitor_spec st) as (st' & H & Hh & _). by exists st'.
Qed.

End ExecutionFacts.

(** ** Fault isolation, traversal order and the shape of the hierarchy *)

Section PassFacts.
Context {Action Hardware : Type}.
Variable Action_execute :
  Action → ExecutionContext Action → M Hardware (ExecutionContext Action).
Implicit Types (st : State Action Hardware).



(** C6.  For every hierarchy, and whatever the hardware does, the
    configure pass returns normally and the visits it makes are exactly
    those of the construction order: Chassis by Chassis, within a Chassis
    Device by Device in the order of its device list, for each Device its
    own Configuration and then its Rails in the order of its rail list,
    for each Rail its Configuration.  The visits are recorded by the
    Configurations and Rails themselves when [Device::configure] calls
    them.  In particular the Configurations of the Devices are executed in
    device order; for Chassis [C1; C2], the first holding Devices [D1; D2]
    and the second [D3; D4] (possibly the same two again), all with a
    Configuration, the pass executes them in the order D1(C1), D2(C1),
    D3(C2), D4(C2). *)
Theorem configure_visits_in_construction_order :
  (∀ st, ∃ st' t,
     System_configure Action_execute st = (Normal tt, st')
     ∧ trace st' = trace st ++ t
     ∧ List.filter is_visit t = construction_order (hier st)
     ∧ List.filter is_device_level t = device_order (hier st))
  ∧ (∀ st n1 n2 (d1 d2 d3 d4 : Device Action) c1 c2 c3 c4,
       hier st
       = {| sys_chassis := [ {| number := n1; devices := [d1; d2] |};
                             {| number := n2; devices := [d3; d4] |} ] |} →
       configuration d1 = Some c1 → configuration d2 = Some c2 →
       configuration d3 = Some c3 → configuration d4 = Some c4 →
       ∃ st' t,
         System_configure Action_execute st = (Normal tt, st')
         ∧ trace st' = trace st ++ t
         ∧ List.filter is_device_level t
           = [ EvExecute n1 (device_id d1) None;
               EvExecute n1 (device_id d2) None;
               EvExecute n2 (device_id d3) None;
               EvExecute n2 (device_id d4) None ]).
Proof.
  assert (∀ st, ∃ st' t,
            System_configure Action_execute st = (Normal tt, st')
            ∧ trace st' = trace st ++ t
            ∧ List.filter is_visit t = construction_order (hier st)
            ∧ List.filter is_device_level t = device_order (hier st)) as Hall.
  { intros st.
    destruct (System_configure_spec Action_execute st)
      as (st' & Hrun & _ & t & fl & Ht & _ & Hv & _).
    exists st', t. repeat split; try done.
    by rewrite <-filter_device_level_of_visits, Hv,
      device_level_construction_order. }
  split; [done|].
  intros st n1 n2 d1 d2 d3 d4 c1 c2 c3 c4 Hh H1 H2 H3 H4.
  destruct (Hall st) as (st' & t & Hrun & Ht & _ & Hd).
  exists st', t. split; [done|]. split; [done|].
  rewrite Hd, Hh. unfold device_order. simpl.
  by rewrite H1, H2, H3, H4.
Qed.

(** C7.  The shape of the hierarchy is preserved.  [getDevices()] of a
    constructed Chassis is the device sequence supplied at construction
    (same objects, same order, same length); [Device::configure] leaves
    invariant whatever the calls it makes leave invariant; and after any
    sequence of configure and monitor passes the hierarchy is the one the
    sequence started from, so a Chassis built from [devs] still returns
    [devs] and no Device or Rail has been added or removed. *)
Theorem hierarchy_shape_is_preserved :
  (∀ n devs (c : Chassis Action),
     Chassis_new n devs = Normal c →
     getDevices c = devs ∧ length (getDevices c) = length devs)
  ∧ (∀ (S : Type) execute rail_configure (P : S → Prop)
       (d : Device Action) system chassis s,
       (∀ c s, P s → P (execute c system chassis d s).2) →
       (∀ r s, r ∈ rails d → P s →
               P (rail_configure r system chassis d s).2) →
       P s →
       P (Device_configure execute rail_configure d system chassis s).2)
  ∧ (∀ (passes : list Pass) st,
       ∃ st', for_each passes (run_pass Action_execute) st = (Normal tt, st')
         ∧ hier st' = hier st
         ∧ ∀ i n devs (c : Chassis Action),
             sys_chassis (hier st) !! i = Some c →
             Chassis_new n devs = Normal c →
             ∃ c', sys_chassis (hier st') !! i = Some c'
                   ∧ getDevices c' = devs).
Proof.
  split; [|split].
  - intros n devs c (_ & _ & Hd)%Chassis_new_inv.
    unfold getDevices. by rewrite Hd.
  - intros S execute rail_configure P d system chassis s.
    apply Device_configure_preserves.
  - intros passes st.
    destruct (for_each_steps same_hierarchy passes
                (run_pass Action_execute) st) as (st' & Hrun & Hh).
    { intros p s _. apply run_pass_spec. }
    exists st'. split; [done|]. split; [done|].
    intros i n devs c Hi (_ & _ & Hd)%Chassis_new_inv.
    exists c. rewrite Hh. done.
Qed.

End PassFacts.

(** ** Configuring twice, at register level *)

Module RegisterEngineFacts.
Import RegisterEngine.

Implicit Types (st : State RegAction Bus) (ws : list (Z * Z * Z)).
Implicit Types (m : gmap (Z * Z) Z) (K W : list (Z * Z)).

Lemma apply_writes_app ws1 ws2 m :
  apply_writes (ws1 ++ ws2) m = apply_writes ws2 (apply_writes ws1 m).
Proof. apply foldl_app. Qed.

(** Registers that are not written keep their value. *)
Lemma apply_writes_other ws m k :
  k ∉ ws.*1 → apply_writes ws m !! k = m !! k.
Proof.
  revert m. induction ws as [|w ws IH]; intros m Hk; [done|].
  apply not_elem_of_cons in Hk as [Hne Hk]. simpl.
  unfold apply_writes in *. simpl. rewrite IH by done.
  by apply lookup_insert_ne.
Qed.

(** The outcome of a run of writes depends only on the registers that are
    not written. *)
Lemma apply_writes_agree ws m m' :
  (∀ k, k ∉ ws.*1 → m !! k = m' !! k) →
  apply_writes ws m = apply_writes ws m'.
Proof.
  revert m m'. induction ws as [|w ws IH]; intros m m' Hagree.
  - apply map_eq. intros k. apply Hagree. apply not_elem_of_nil.
  - unfold apply_writes in *. simpl. apply IH. intros k Hk.
    destruct (decide (w.1 = k)) as [->|Hne].
    + by rewrite !lookup_insert_eq.
    + rewrite !lookup_insert_ne by done. apply Hagree.
      apply not_elem_of_cons. split; [by intros ->|done].
Qed.

(** Applying the same writes a second time changes nothing. *)
Lemma apply_writes_idempotent ws m :
  apply_writes ws (apply_writes ws m) = apply_writes ws m.
Proof. apply apply_writes_agree. intros k. apply apply_writes_other. Qed.

(** Register files that agree on some registers still agree on them after
    the same writes. *)
Lemma agree_apply_writes K ws m m' :
  agree K m m' → agree K (apply_writes ws m) (apply_writes ws m').
Proof.
  revert m m'. induction ws as [|w ws IH]; intros m m' Hag; [done|].
  unfold apply_writes in *. simpl. apply IH. intros k Hk.
  destruct (decide (w.1 = k)) as [->|Hne].
  - by rewrite !lookup_insert_eq.
  - rewrite !lookup_insert_ne by done. by apply Hag.
Qed.

Lemma agree_weaken K K' m m' :
  (∀ k, k ∈ K → k ∈ K') → agree K' m m' → agree K m m'.
Proof. intros Hincl Hag k Hk. apply Hag, Hincl, Hk. Qed.

Lemma bus_eta (b : Bus) N : nack b = N → {| regs := regs b; nack := N |} = b.
Proof. destruct b. simpl. by intros ->. Qed.

(** *** Bus computations *)

Lemma steady_weaken {A} K W K' W' (Q Q' : A → Prop) (c : M Bus A) :
  (∀ k, k ∈ K → k ∈ K') → (∀ k, k ∈ W → k ∈ W') → (∀ a, Q a → Q' a) →
  steady K W Q c → steady K' W' Q' c.
Proof.
  intros HK HW HQ Hc N ρ Hfree.
  destruct (Hc N ρ) as (a & ws & Qa & Hws & Hrun).
  { intros k [Hk|Hk]%elem_of_app; apply Hfree, elem_of_app; auto. }
  exists a, ws. split; [auto|]. split; [auto|].
  intros b HN Hag. apply Hrun; [done|]. by eapply agree_weaken.
Qed.

Lemma steady_ret {A} K W (Q : A → Prop) (a : A) :
  Q a → steady K W Q (ret a).
Proof.
  intros Qa N ρ _. exists a, []. split; [done|]. split.
  - intros k Hk. by apply elem_of_nil in Hk.
  - intros b HN _. unfold ret. simpl. by rewrite bus_eta.
Qed.

Lemma steady_bind {A B} K1 W1 K2 W2 (Q1 : A → Prop) (Q2 : B → Prop)
    (c : M Bus A) (k : A → M Bus B) :
  steady K1 W1 Q1 c →
  (∀ a, Q1 a → steady K2 W2 Q2 (k a)) →
  steady (K1 ++ K2) (W1 ++ W2) Q2 (bind c k).
Proof.
  intros Hc Hk N ρ Hfree.
  destruct (Hc N ρ) as (a & ws1 & Qa & Hws1 & Hrun1).
  { intros x [Hx|Hx]%elem_of_app; apply Hfree;
      rewrite !elem_of_app; auto. }
  destruct (Hk a Qa N (apply_writes ws1 ρ)) as (r & ws2 & Qr & Hws2 & Hrun2).
  { intros x [Hx|Hx]%elem_of_app; apply Hfree;
      rewrite !elem_of_app; auto. }
  exists r, (ws1 ++ ws2). split; [done|]. split.
  - intros x. rewrite fmap_app, !elem_of_app. intros [Hx|Hx]; auto.
  - intros b HN Hag. unfold bind. rewrite (Hrun1 b HN).
    + rewrite (Hrun2 {| regs := apply_writes ws1 (regs b); nack := N |}
                 eq_refl).
      * simpl. by rewrite apply_writes_app.
      * simpl. apply agree_apply_writes.
        eapply agree_weaken; [|exact Hag].
        intros x Hx. apply elem_of_app. auto.
    + eapply agree_weaken; [|exact Hag].
      intros x Hx. apply elem_of_app. auto.
Qed.

Lemma writeRegister_steady address reg value :
  steady [] [(address, reg)] (λ _, True) (writeRegister address reg value).
Proof.
  intros N ρ Hfree. exists tt, [(address, reg, value)].
  split; [done|]. split; [done|].
  intros b HN _. unfold writeRegister. rewrite HN.
  destruct (decide _) as [Hin|_]; [|done].
  exfalso. apply (Hfree (address, reg)); [|done]. by left.
Qed.

Lemma readRegister_steady address reg :
  steady [(address, reg)] [] (λ _, True) (readRegister address reg).
Proof.
  intros N ρ Hfree. exists (default 0%Z (ρ !! (address, reg))), [].
  split; [done|]. split.
  - intros k Hk. by apply elem_of_nil in Hk.
  - intros b HN Hag. unfold readRegister. rewrite HN.
    destruct (decide _) as [Hin|_].
    + exfalso. apply (Hfree (address, reg)); [|done]. by left.
    + rewrite (Hag (address, reg)) by (by left). simpl.
      by rewrite bus_eta.
Qed.

(** *** Actions *)

(** Induction over actions, with the nested action lists of [if]. *)
Lemma RegAction_nested_ind (P : RegAction → Prop) :
  (∀ reg value, P (WriteAction reg value)) →
  (∀ reg value, P (CompareAction reg value)) →
  (∀ a, P a → P (NotAction a)) →
  (∀ cond ts es, P cond → Forall P ts → Forall P es →
                 P (IfAction cond ts es)) →
  ∀ a, P a.
Proof.
  intros HW HC HN HI. fix IH 1. intros [reg value|reg value|a|cond ts es].
  - apply HW.
  - apply HC.
  - apply HN, IH.
  - apply HI.
    + apply IH.
    + induction ts as [|t ts IHts]; constructor; [apply IH|apply IHts].
    + induction es as [|e es IHes]; constructor; [apply IH|apply IHes].
Qed.

Lemma RegAction_execute_if cond ts es ctx :
  RegAction_execute (IfAction cond ts es) ctx
  = (ctx' <- RegAction_execute cond ctx ;;
     if last_result ctx' then RegAction_run ts ctx'
     else RegAction_run es ctx').
Proof. reflexivity. Qed.

Lemma RegAction_run_steady (l : list RegAction) :
  Forall action_steady l →
  ∀ ctx,
    steady (flat_map (action_reads (device_address (ctx_device ctx))) l)
           (flat_map (action_write_keys (device_address (ctx_device ctx))) l)
           (λ ctx', ctx_device ctx' = ctx_device ctx)
           (RegAction_run l ctx).
Proof.
  induction 1 as [|a l Ha _ IH]; intros ctx.
  - by apply steady_ret.
  - change (RegAction_run (a :: l) ctx)
      with (c' <- RegAction_execute a ctx ;; RegAction_run l c').
    simpl. eapply steady_bind; [apply Ha|].
    intros c' Hc'. simpl in Hc'.
    eapply steady_weaken; [| | |apply (IH c')].
    + intros k. by rewrite Hc'.
    + intros k. by rewrite Hc'.
    + intros c'' Hc''. simpl in *. congruence.
Qed.

Lemma RegAction_execute_steady (a : RegAction) : action_steady a.
Proof.
  induction a as [reg value|reg value|a IH|cond ts es IHc IHt IHe]
    using RegAction_nested_ind; intros ctx.
  - simpl.
    apply (steady_bind [] [_] [] [] (λ _, True)).
    + apply writeRegister_steady.
    + intros _ _. by apply steady_ret.
  - simpl.
    apply (steady_bind [_] [] [] [] (λ _, True)).
    + apply readRegister_steady.
    + intros x _. by apply steady_ret.
  - simpl.
    eapply steady_weaken;
      [| | |apply (steady_bind _ _ [] [] _
                     (λ ctx', ctx_device ctx' = ctx_device ctx)
                     _ _ (IH ctx))].
    + intros k Hk. by rewrite app_nil_r in Hk.
    + intros k Hk. by rewrite app_nil_r in Hk.
    + done.
    + intros ctx' Hc'. apply steady_ret. done.
  - rewrite RegAction_execute_if. simpl.
    eapply steady_bind; [apply IHc|].
    intros ctx' Hc'. simpl in Hc'. rewrite <-Hc'.
    destruct (last_result ctx').
    + eapply steady_weaken; [| | |apply (RegAction_run_steady ts IHt ctx')].
      * intros k Hk. apply elem_of_app. by left.
      * intros k Hk. apply elem_of_app. by left.
      * done.
    + eapply steady_weaken; [| | |apply (RegAction_run_steady es IHe ctx')].
      * intros k Hk. apply elem_of_app. by right.
      * intros k Hk. apply elem_of_app. by right.
      * done.
Qed.

(** *** Parts of a pass *)

Lemma steady_pass_weaken {A} K W K' W' (Q Q' : A → Prop)
    (c : M (State RegAction Bus) A) :
  (∀ k, k ∈ K → k ∈ K') → (∀ k, k ∈ W → k ∈ W') → (∀ a, Q a → Q' a) →
  steady_pass K W Q c → steady_pass K' W' Q' c.
Proof.
  intros HK HW HQ Hc N ρ Hfree.
  destruct (Hc N ρ) as (a & ws & Qa & Hws & Hrun).
  { intros k [Hk|Hk]%elem_of_app; apply Hfree, elem_of_app; auto. }
  exists a, ws. split; [auto|]. split; [auto|].
  intros st HN Hag. apply Hrun; [done|]. by eapply agree_weaken.
Qed.

(** A step that returns and leaves hierarchy, hardware and fault log
    alone. *)
Lemma steady_pass_skip {A} K W (Q : A → Prop)
    (c : M (State RegAction Bus) A) (a : A) (g : State RegAction Bus
                                                → State RegAction Bus) :
  Q a →
  (∀ st, c st = (Normal a, g st)) →
  (∀ st, hier (g st) = hier st ∧ hw (g st) = hw st
         ∧ fault_log (g st) = fault_log st) →
  steady_pass K W Q c.
Proof.
  intros Qa Hc Hg N ρ _. exists a, []. split; [done|]. split.
  - intros k Hk. by apply elem_of_nil in Hk.
  - intros st HN _. exists (g st). destruct (Hg st) as (Hh & Hhw & Hf).
    rewrite Hc, Hh, Hhw, Hf. repeat split. simpl. by rewrite bus_eta.
Qed.

Lemma steady_pass_bind {A B} K1 W1 K2 W2 (Q1 : A → Prop) (Q2 : B → Prop)
    (c : M (State RegAction Bus) A) (k : A → M (State RegAction Bus) B) :
  steady_pass K1 W1 Q1 c →
  (∀ a, Q1 a → steady_pass K2 W2 Q2 (k a)) →
  steady_pass (K1 ++ K2) (W1 ++ W2) Q2 (bind c k).
Proof.
  intros Hc Hk N ρ Hfree.
  destruct (Hc N ρ) as (a & ws1 & Qa & Hws1 & Hrun1).
  { intros x [Hx|Hx]%elem_of_app; apply Hfree;
      rewrite !elem_of_app; auto. }
  destruct (Hk a Qa N (apply_writes ws1 ρ)) as (r & ws2 & Qr & Hws2 & Hrun2).
  { intros x [Hx|Hx]%elem_of_app; apply Hfree;
      rewrite !elem_of_app; auto. }
  exists r, (ws1 ++ ws2). split; [done|]. split.
  - intros x. rewrite fmap_app, !elem_of_app. intros [Hx|Hx]; auto.
  - intros st HN Hag.
    destruct (Hrun1 st HN) as (st1 & H1 & Hh1 & Hf1 & Hw1).
    { eapply agree_weaken; [|exact Hag].
      intros x Hx. apply elem_of_app. auto. }
    destruct (Hrun2 st1) as (st2 & H2 & Hh2 & Hf2 & Hw2).
    { by rewrite Hw1. }
    { rewrite Hw1. simpl. apply agree_apply_writes.
      eapply agree_weaken; [|exact Hag].
      intros x Hx. apply elem_of_app. auto. }
    exists st2. rewrite (bind_normal _ _ _ _ _ H1).
    split; [done|]. split; [congruence|]. split; [congruence|].
    rewrite Hw2, Hw1. simpl. by rewrite apply_writes_app.
Qed.

Lemma steady_pass_on_hardware {A} K W (Q : A → Prop) (c : M Bus A) :
  steady K W Q c → steady_pass K W Q (on_hardware c).
Proof.
  intros Hc N ρ Hfree.
  destruct (Hc N ρ Hfree) as (a & ws & Qa & Hws & Hrun).
  exists a, ws. split; [done|]. split; [done|].
  intros st HN Hag. unfold on_hardware. rewrite (Hrun (hw st) HN Hag).
  eexists. split; [done|]. done.
Qed.

(** A handler around a part that returns is never entered. *)
Lemma steady_pass_try_catch {A} K W (Q : A → Prop)
    (c : M (State RegAction Bus) A) handler :
  steady_pass K W Q c → steady_pass K W Q (try_catch c handler).
Proof.
  intros Hc N ρ Hfree.
  destruct (Hc N ρ Hfree) as (a & ws & Qa & Hws & Hrun).
  exists a, ws. split; [done|]. split; [done|].
  intros st HN Hag. destruct (Hrun st HN Hag) as (st' & H & Hrest).
  exists st'. unfold try_catch. by rewrite H.
Qed.

Lemma steady_pass_for_each {A} (l : list A)
    (body : A → M (State RegAction Bus) unit) (K W : A → list (Z * Z)) :
  (∀ x, x ∈ l → steady_pass (K x) (W x) (λ _, True) (body x)) →
  steady_pass (flat_map K l) (flat_map W l) (λ _, True) (for_each l body).
Proof.
  induction l as [|x l IH]; intros Hb.
  - by apply (steady_pass_skip _ _ _ _ tt (λ st, st)).
  - simpl. apply (steady_pass_bind _ _ _ _ (λ _, True)).
    + apply Hb. by left.
    + intros _ _. apply IH. intros y Hy. apply Hb. by right.
Qed.

Lemma note_steady K W e :
  steady_pass K W (λ _, True) (note (Action := RegAction) (Hardware := Bus) e).
Proof.
  by apply (steady_pass_skip _ _ _ _ tt
              (λ st, {| hier := hier st; hw := hw st;
                        trace := trace st ++ [e];
                        fault_log := fault_log st |})).
Qed.

Lemma run_actions_steady entity (actions : list RegAction) k ctx :
  steady_pass
    (flat_map (action_reads (device_address (ctx_device ctx))) actions)
    (flat_map (action_write_keys (device_address (ctx_device ctx))) actions)
    (λ ctx', ctx_device ctx' = ctx_device ctx)
    (run_actions RegAction_execute entity k actions ctx).
Proof.
  revert k ctx. induction actions as [|a actions IH]; intros k ctx.
  - by apply (steady_pass_skip _ _ _ _ ctx (λ st, st)).
  - simpl.
    apply (steady_pass_bind [] [] _ _ (λ _, True)); [apply note_steady|].
    intros _ _. eapply steady_pass_bind.
    + apply steady_pass_on_hardware, RegAction_execute_steady.
    + intros ctx' Hc'. simpl in Hc'.
      eapply steady_pass_weaken; [| | |apply (IH (S k) ctx')].
      * intros x. by rewrite Hc'.
      * intros x. by rewrite Hc'.
      * intros c'' Hc''. simpl in *. congruence.
Qed.

Lemma execute_in_steady (c : Configuration RegAction) ctx :
  steady_pass
    (cfg_reads (device_address (ctx_device ctx)) (Some c))
    (cfg_write_keys (device_address (ctx_device ctx)) (Some c))
    (λ _, True) (execute_in RegAction_execute c ctx).
Proof.
  unfold execute_in.
  apply (steady_pass_bind [] [] _ _ (λ _, True)); [apply note_steady|].
  intros _ _. apply steady_pass_try_catch.
  eapply steady_pass_weaken;
    [| | |apply (steady_pass_bind _ _ [] [] _ (λ _, True) _ _
                   (run_actions_steady _ (cfg_actions c) 0 ctx))].
  - intros x Hx. by rewrite app_nil_r in Hx.
  - intros x Hx. by rewrite app_nil_r in Hx.
  - done.
  - intros ctx' _. by apply (steady_pass_skip _ _ _ _ tt (λ st, st)).
Qed.

Lemma Rail_configure_steady (r : Rail RegAction) system chassis d :
  steady_pass
    (cfg_reads (device_address d) (rail_configuration r))
    (cfg_write_keys (device_address d) (rail_configuration r))
    (λ _, True) (Rail_configure RegAction_execute r system chassis d).
Proof.
  unfold Rail_configure.
  apply (steady_pass_bind [] [] _ _ (λ _, True)); [apply note_steady|].
  intros _ _. destruct (rail_configuration r) as [c|].
  - apply (execute_in_steady c (rail_context system chassis d r)).
  - by apply (steady_pass_skip _ _ _ _ tt (λ st, st)).
Qed.

Lemma configure_device_steady (d : Device RegAction) system chassis :
  steady_pass (device_reads d) (device_write_keys d) (λ _, True)
    (configure_device RegAction_execute system chassis d).
Proof.
  unfold configure_device, Device_configure, device_reads, device_write_keys.
  apply (steady_pass_bind _ _ _ _ (λ _, True)).
  - destruct (configuration d) as [c|].
    + apply (execute_in_steady c (device_context system chassis d)).
    + by apply (steady_pass_skip _ _ _ _ tt (λ st, st)).
  - intros _ _.
    apply (steady_pass_for_each (rails d)
             (λ rail, Rail_configure RegAction_execute rail system chassis d)
             (λ r, cfg_reads (device_address d) (rail_configuration r))
             (λ r, cfg_write_keys (device_address d) (rail_configuration r))).
    intros r _. apply Rail_configure_steady.
Qed.

(** The pass over a hierarchy tests only the registers its compares read
    and writes only the registers its writes name. *)
Lemma configure_system_steady (s system : System RegAction) :
  steady_pass (system_reads s) (system_write_keys s) (λ _, True)
    (for_each (sys_chassis s) (configure_chassis RegAction_execute system)).
Proof.
  unfold system_reads, system_write_keys.
  apply (steady_pass_for_each (sys_chassis s)
           (configure_chassis RegAction_execute system)
           (λ ch, flat_map device_reads (getDevices ch))
           (λ ch, flat_map device_write_keys (getDevices ch))).
  intros ch _. unfold configure_chassis.
  apply (steady_pass_for_each (getDevices ch)
           (configure_device RegAction_execute system ch)
           device_reads device_write_keys).
  intros d _. apply configure_device_steady.
Qed.

(** The first of two passes, where every register the hierarchy tests or
    writes responds: it returns, records nothing, and has applied writes
    that any pass starting where the tested registers read the same
    applies again. *)
Lemma System_configure_effect st :
  (∀ k, k ∈ system_reads (hier st) ++ system_write_keys (hier st) →
        k ∉ nack (hw st)) →
  ∃ ws st1,
    (∀ k, k ∈ ws.*1 → k ∈ system_write_keys (hier st))
    ∧ System_configure RegAction_execute st = (Normal tt, st1)
    ∧ fault_log st1 = fault_log st
    ∧ hier st1 = hier st
    ∧ hw st1 = {| regs := apply_writes ws (regs (hw st));
                  nack := nack (hw st) |}
    ∧ (agree (system_reads (hier st)) (regs (hw st)) (regs (hw st1)) →
       ∃ st2,
         System_configure RegAction_execute st1 = (Normal tt, st2)
         ∧ fault_log st2 = fault_log st
         ∧ hw st2 = hw st1).
Proof.
  intros Hfree.
  destruct (configure_system_steady (hier st) (hier st)
              (nack (hw st)) (regs (hw st)) Hfree)
    as ([] & ws & _ & Hws & Hrun).
  destruct (Hrun st eq_refl) as (st1 & H1 & Hh1 & Hf1 & Hw1); [done|].
  exists ws, st1. split; [done|]. split; [done|]. split; [done|].
  split; [done|]. split; [done|]. intros Hag.
  destruct (Hrun st1) as (st2 & H2 & Hh2 & Hf2 & Hw2).
  { by rewrite Hw1. }
  { done. }
  exists st2. unfold System_configure. rewrite Hh1.
  split; [done|]. split; [congruence|].
  rewrite Hw2, Hw1. simpl. by rewrite apply_writes_idempotent.
Qed.

(** A hierarchy none of whose Configurations tests a register that one of
    them writes: a second pass changes nothing. *)
Lemma configure_twice_disjoint st :
  (∀ k, k ∈ system_reads (hier st) → k ∉ system_write_keys (hier st)) →
  (∀ k, k ∈ system_reads (hier st) ++ system_write_keys (hier st) →
        k ∉ nack (hw st)) →
  ∃ st1 st2,
    System_configure RegAction_execute st = (Normal tt, st1)
    ∧ System_configure RegAction_execute st1 = (Normal tt, st2)
    ∧ hw st2 = hw st1
    ∧ fault_log st1 = fault_log st
    ∧ fault_log st2 = fault_log st.
Proof.
  intros Hstable Hfree.
  destruct (System_configure_effect st Hfree)
    as (ws & st1 & Hws & H1 & Hf1 & Hh1 & Hw1 & Hsecond).
  destruct Hsecond as (st2 & H2 & Hf2 & Hw2).
  { rewrite Hw1. simpl. intros k Hk. f_equal. symmetry.
    apply apply_writes_other. intros Hin. by apply (Hstable k Hk), Hws. }
  by exists st1, st2.
Qed.


End RegisterEngineFacts.

(** ** The properties at work on concrete machines *)

Module Examples.
Import RegisterEngine RegisterEngineFacts.


(** The whole pass over that machine, and [Device::configure] on its own
    with callees that return: the rails [vdd] and [vcs] of [reg_a] are
    configured after the fault, and so are [reg_b] and its rail. *)
Example rails_and_siblings_configured_after_fault :
  let r := System_configure RegAction_execute faulty_start in
  r.1 = Normal tt
  ∧ trace r.2
    = [ EvExecute 1 "reg_a" None; EvAction "reg_a" 0; EvAction "reg_a" 1;
        EvRail 1 "reg_a" "vdd"; EvExecute 1 "reg_a" (Some "vdd");
        EvAction "vdd" 0;
        EvRail 1 "reg_a" "vcs";
        EvExecute 1 "reg_b" None; EvAction "reg_b" 0;
        EvRail 1 "reg_b" "vio"; EvExecute 1 "reg_b" (Some "vio");
        EvAction "vio" 0 ]
  ∧ fault_log r.2 = [("reg_a", HardwareTransactionFault)]
  ∧ Device_configure execute_returning rail_reporting
      reg_a machine chassis1 []
    = (Normal tt, ["vdd"; "vcs"]).
Proof. simpl. repeat split; vm_compute; reflexivity. Qed.

(** A fault raised while the rail [vdd] is configured is recorded against
    [vdd]; the rail [vcs] after it and the sibling [reg_b] are still
    configured. *)
Example rail_fault_is_recorded_against_the_rail :
  let r := System_configure RegAction_execute rail_fault_start in
  r.1 = Normal tt
  ∧ fault_log r.2 = [("vdd", HardwareTransactionFault)]
  ∧ List.filter is_visit (trace r.2) = construction_order machine.
Proof. simpl. repeat split; vm_compute; reflexivity. Qed.

(** Register 3 of [watched] does not acknowledge: the first monitoring
    action of [watched] raises a fault, which is recorded against
    [watched]; the pass goes on and returns normally. *)
Example monitoring_fault_is_recorded :
  let r := System_monitor RegAction_execute watched_start in
  r.1 = Normal tt
  ∧ fault_log r.2 = [("watched", HardwareTransactionFault)]
  ∧ system_monitored watched_machine = ["watched"; "vmon"].
Proof. simpl. repeat split; vm_compute; reflexivity. Qed.


Lemma IDMap_population_registers_everything_witness :
  let idMap := (buildIDMap machine).2 in
  getDevice idMap "reg_a" = Normal reg_a
  ∧ getDevice idMap "reg_b" = Normal reg_b
  ∧ getRail idMap "vdd" = Normal rail_vdd
  ∧ getRail idMap "vio" = Normal rail_vio.
Proof.
  pose proof (IDMap_population_registers_everything machine
                (buildIDMap machine).2) as [Hd Hr];
    [vm_compute; reflexivity|].
  split; [|split; [|split]].
  - apply (Hd reg_a). vm_compute. by left.
  - apply (Hd reg_b). vm_compute. right. by left.
  - apply (Hr rail_vdd). vm_compute. by left.
  - apply (Hr rail_vio). vm_compute. do 2 right. by left.
Defined.

(** A rail that reuses the identifier of a device makes the population
    walk fail, and the walk over the machine of the examples succeeds. *)
Lemma IDMap_rejects_duplicate_identifiers_witness :
  (∃ idMap, buildIDMap machine = (Normal tt, idMap))
  ∧ (∃ f idMap, buildIDMap clash_machine = (Throw f, idMap)
                ∧ BuildError f = true).
Proof.
  pose proof (IDMap_rejects_duplicate_identifiers (Action := RegAction))
    as (_ & _ & Hwalk).
  split.
  - apply (Hwalk machine). by apply (bool_decide_unpack _).
  - apply (Hwalk clash_machine). by apply (bool_decide_unpack _).
Defined.



(** What the conditional of [guarded_machine] tests, what the machine
    writes, and what the registers hold after a pass from power-on. *)
Example guarded_machine_registers :
  system_reads guarded_machine = [(80%Z, 5%Z)]
  ∧ system_write_keys guarded_machine
    = [ (112%Z, 0%Z); (112%Z, 1%Z); (112%Z, 2%Z); (112%Z, 7%Z);
        (80%Z, 1%Z); (80%Z, 5%Z); (80%Z, 1%Z); (80%Z, 2%Z); (80%Z, 7%Z) ]
  ∧ map_to_list
      (regs (hw (System_configure RegAction_execute
                   (power_on guarded_machine ∅)).2))
    ≡ₚ [ ((112%Z, 0%Z), 10%Z); ((112%Z, 1%Z), 20%Z); ((112%Z, 2%Z), 30%Z);
         ((112%Z, 7%Z), 1%Z); ((80%Z, 1%Z), 5%Z); ((80%Z, 5%Z), 0%Z);
         ((80%Z, 2%Z), 7%Z); ((80%Z, 7%Z), 2%Z) ].
Proof.
  split; [reflexivity|]. split; [reflexivity|].
  apply (bool_decide_unpack _). vm_compute. reflexivity.
Qed.

(** Two chassis with the regulators [D1] and [D2] each: the pass executes
    the Configurations of the devices in the order D1 and D2 of chassis 1,
    then D1 and D2 of chassis 2. *)
Lemma configure_visits_in_construction_order_witness :
  ∃ st' t,
    System_configure RegAction_execute (power_on two_chassis ∅)
      = (Normal tt, st')
    ∧ trace st' = trace (power_on two_chassis ∅) ++ t
    ∧ List.filter is_device_level t
      = [ EvExecute 1 "D1" None; EvExecute 1 "D2" None;
          EvExecute 2 "D1" None; EvExecute 2 "D2" None ].
Proof.
  apply (proj2 (configure_visits_in_construction_order RegAction_execute)
           (power_on two_chassis ∅) 1%Z 2%Z dev_D1 dev_D2 dev_D1 dev_D2
           _ _ _ _ eq_refl eq_refl eq_refl eq_refl eq_refl).
Defined.

(** [chassis1] is what construction from its two regulators yields, and
    after a configure, a monitor and another configure pass it still holds
    exactly these two, in this order. *)
Lemma hierarchy_shape_is_preserved_witness :
  ∃ st',
    for_each [configure_pass; monitor_pass; configure_pass]
      (run_pass RegAction_execute) faulty_start = (Normal tt, st')
    ∧ hier st' = machine
    ∧ ∃ c', sys_chassis (hier st') !! 0 = Some c'
            ∧ getDevices c' = [reg_a; reg_b].
Proof.
  destruct (proj2 (proj2 (hierarchy_shape_is_preserved RegAction_execute))
              [configure_pass; monitor_pass; configure_pass] faulty_start)
    as (st' & Hrun & Hh & Hch).
  exists st'. split; [done|]. split; [done|].
  apply (Hch 0 1%Z [reg_a; reg_b] chassis1); reflexivity.
Defined.

(** On the machine of the examples, with every register responsive, the
    pass makes the visits of the construction order. *)
Example machine_configured_in_order :
  List.filter is_visit
    (trace (System_configure RegAction_execute (power_on machine ∅)).2)
  = construction_order machine
  ∧ construction_order machine
    = [ EvExecute 1 "reg_a" None;
        EvRail 1 "reg_a" "vdd"; EvExecute 1 "reg_a" (Some "vdd");
        EvRail 1 "reg_a" "vcs";
        EvExecute 1 "reg_b" None;
        EvRail 1 "reg_b" "vio"; EvExecute 1 "reg_b" (Some "vio") ].
Proof. split; vm_compute; reflexivity. Qed.

End Examples.

(** ** The calls Device::configure and Device::addToIDMap make *)

Section CallSequences.
Context {Action : Type}.

Lemma for_each_recording {A B} (g : A → B) (l : list A) (log : list B) :
  for_each l (λ x, modify (λ log, log ++ [g x])) log
  = (Normal tt, log ++ map g l).
Proof.
  revert log. induction l as [|x l IH]; intros log; simpl.
  - by rewrite app_nil_r.
  - unfold bind, modify at 1. rewrite IH. by rewrite <-app_assoc.
Qed.

(** X1.  When none of its callees throws, [Device::configure] returns
    normally having called, in this order and each exactly once, the
    device's own configuration if there is one and then the configuration
    of every rail in the order of the rail vector; each of these calls is
    handed the device itself and the chassis that [configure] was given.
    A device without configuration and without rails makes no call. *)
Theorem Device_configure_call_sequence
    (d : Device Action) (system : System Action) (chassis : Chassis Action)
    (log : list (string * string * Z)) :
  Device_configure execute_recording rail_recording d system chassis log
  = (Normal tt,
     log
     ++ match configuration d with
        | Some c => [(cfg_id c, device_id d, getNumber chassis)]
        | None => []
        end
     ++ map (λ r, (rail_id r, device_id d, getNumber chassis)) (rails d)).
Proof.
  unfold Device_configure, bind, rail_recording.
  destruct (configuration d) as [c|]; simpl.
  - rewrite (for_each_recording
               (λ r, (rail_id r, device_id d, getNumber chassis))).
    by rewrite <-app_assoc.
  - apply (for_each_recording
             (λ r, (rail_id r, device_id d, getNumber chassis))).
Qed.

Lemma for_each_rail_raising (rs : list (Rail Action)) system chassis
    (d : Device Action) bad f (log : list string) :
  for_each rs (λ rail, rail_raising bad f rail system chassis d) log
  = (if bool_decide (bad ∈ map rail_id rs) then Throw f else Normal tt,
     log ++ ids_before bad (map rail_id rs)).
Proof.
  revert log. induction rs as [|r rs IH]; intros log; simpl.
  - by rewrite app_nil_r.
  - unfold bind, rail_raising at 1.
    destruct (decide (rail_id r = bad)) as [<-|Hne].
    + rewrite (bool_decide_eq_true_2 (rail_id r = rail_id r)) by done.
      rewrite (bool_decide_eq_true_2 (rail_id r ∈ _)) by left.
      unfold throw. by rewrite app_nil_r.
    + rewrite (bool_decide_eq_false_2 (rail_id r = bad)) by done.
      unfold modify. rewrite IH, <-app_assoc. simpl. f_equal.
      rewrite (bool_decide_ext (bad ∈ rail_id r :: map rail_id rs)
                               (bad ∈ map rail_id rs)); [done|].
      rewrite elem_of_cons.
      split; [intros [Heq|Hin]; [by destruct Hne|done]|by right].
Qed.

(** X2.  When configuring a rail raises a fault, [Device::configure]
    raises that fault having configured exactly the rails that come before
    the first failing one in the rail vector, in order; no rail after it
    is configured.  When no rail fails, all are configured and the call
    returns normally. *)
Theorem Device_configure_stops_at_failing_rail
    (d : Device Action) (system : System Action) (chassis : Chassis Action)
    (bad : string) (f : Fault) (log : list string) :
  Device_configure execute_returning (rail_raising bad f) d system chassis log
  = (if bool_decide (bad ∈ map rail_id (rails d)) then Throw f
     else Normal tt,
     log ++ ids_before bad (map rail_id (rails d))).
Proof.
  unfold Device_configure, bind, execute_returning.
  destruct (configuration d); simpl; apply for_each_rail_raising.
Qed.

(** X3.  [Device::addToIDMap] raises a fault exactly when registering the
    device raised it, in which case no rail has been registered, or when,
    the device and a leading part of the rail vector having been
    registered, registering the next rail raised it, in which case the
    rails after that one have not been registered.  In both cases the map
    is left as the failing registration left it: nothing is undone. *)
Theorem Device_addToIDMap_throws_iff {IDMap : Type}
    (addDevice : Device Action → M IDMap unit)
    (addRail : Rail Action → M IDMap unit)
    (d : Device Action) (m m' : IDMap) (f : Fault) :
  Device_addToIDMap addDevice addRail d m = (Throw f, m')
  ↔ addDevice d m = (Throw f, m')
    ∨ (∃ m1 l1 r l2 m2,
         addDevice d m = (Normal tt, m1)
         ∧ rails d = l1 ++ r :: l2
         ∧ for_each l1 (λ rail, addRail rail) m1 = (Normal tt, m2)
         ∧ addRail r m2 = (Throw f, m')).
Proof.
  unfold Device_addToIDMap. split.
  - intros H.
    apply bind_inv in H as [([] & m1 & Hd & Hl)|(f' & Hd & [= <-])].
    + right.
      apply for_each_throw in Hl as (l1 & r & l2 & m2 & Hr & H1 & Hf).
      by exists m1, l1, r, l2, m2.
    + by left.
  - intros [Hd|(m1 & l1 & r & l2 & m2 & Hd & Hr & H1 & Hf)].
    + by apply bind_throw.
    + rewrite (bind_normal _ _ _ _ _ Hd), Hr, for_each_app.
      rewrite (bind_normal _ _ _ _ _ H1). simpl. by apply bind_throw.
Qed.

(** X4.  When no registration fails, [Device::addToIDMap] returns normally
    having registered the device first and then every rail, each exactly
    once and in the order of the rail vector; a device without rails
    registers only itself. *)
Theorem Device_addToIDMap_call_sequence
    (d : Device Action) (log : list string) :
  Device_addToIDMap addDevice_recording addRail_recording d log
  = (Normal tt, log ++ device_id d :: map rail_id (rails d)).
Proof.
  unfold Device_addToIDMap, bind, addDevice_recording, addRail_recording.
  simpl. rewrite (for_each_recording rail_id). by rewrite <-app_assoc.
Qed.

(** X7.  Registration and configuration agree on the rails of a device:
    what [Device::addToIDMap] registers is the device followed by exactly
    the rails that [Device::configure] configures, in the same order. *)
Theorem registered_rails_are_the_configured_rails
    (d : Device Action) (system : System Action) (chassis : Chassis Action) :
  (Device_addToIDMap addDevice_recording addRail_recording d []).2
  = device_id d
      :: (Device_configure execute_returning rail_reporting
            d system chassis []).2.
Proof.
  unfold Device_addToIDMap, Device_configure, bind.
  unfold addDevice_recording, addRail_recording, rail_reporting,
    execute_returning.
  assert ((match configuration d with
           | Some _ => ret tt
           | None => ret tt
           end : M (list string) unit) [] = (Normal tt, [])) as ->
    by (by destruct (configuration d)).
  simpl. by rewrite !(for_each_recording rail_id).
Qed.

End CallSequences.

(** Two Devices handed to the constructor of chassis 2 end up owned by
    it, alive, beside a third one that was not handed over. *)
Lemma construct_success_witness :
  Ownership.construct 2 [5%positive; 9%positive]
    {[5%positive; 9%positive; 11%positive]}
  = (Normal (2%Z, [5%positive; 9%positive]), [],
     {[5%positive; 9%positive; 11%positive]}).
Proof. apply OwnershipFacts.construct_success. lia. Defined.
